(** * Codebase Time Machine: the history-indexing pipeline

    A shallow embedding of [db.py], [git_indexer.py] and [analysis.py],
    of the commands of [cli.py] that chain them, of the churn query of
    [visualize.py] and of the keyword routing of [qa.py].

    The relational store is a record of tables; a table is the list of its
    rows in rowid order.  A connection is a store together with the value
    SQLite reports as [sqlite3_last_insert_rowid] for that connection,
    because [upsert_file] reads it back through [Cursor.lastrowid].

    Python [str] values are modelled as byte strings, Python [int] as [Z],
    [None]-able values as [option]. *)

From stdpp Require Import gmap strings list sorting.
From Stdlib Require Import ZArith Lia Ascii.

Local Open Scope Z_scope.

(** ** Rows of the schema ([SCHEMA_SQL] in db.py) *)

Record CommitRow := mkCommitRow {
  c_id : string;
  c_author_name : string;
  c_author_email : string;
  c_authored_date : Z;
  c_message : string
}.

Record FileRow := mkFileRow {
  f_id : Z;
  f_path : option string
}.

Record CommitFileRow := mkCommitFileRow {
  cf_commit_id : string;
  cf_file_id : Z;
  cf_additions : Z;
  cf_deletions : Z;
  cf_change_type : string;
  cf_old_path : option string;
  cf_new_path : option string;
  cf_is_binary : Z
}.

Record OwnershipRow := mkOwnershipRow {
  o_file_id : Z;
  o_author_email : string;
  o_commits : Z;
  o_lines_added : Z;
  o_lines_deleted : Z;
  o_first_commit : Z;
  o_last_commit : Z
}.

Record ComplexityRow := mkComplexityRow {
  x_file_id : Z;
  x_commit_id : string;
  x_nloc : Z;
  x_ccn : Z;
  x_functions : Z
}.

Record FeatureRow := mkFeatureRow {
  ft_commit_id : string;
  ft_type : string;
  ft_reference : string
}.

#[global] Instance CommitRow_eq_dec : EqDecision CommitRow.
Proof. solve_decision. Defined.
#[global] Instance FileRow_eq_dec : EqDecision FileRow.
Proof. solve_decision. Defined.
#[global] Instance CommitFileRow_eq_dec : EqDecision CommitFileRow.
Proof. solve_decision. Defined.
#[global] Instance OwnershipRow_eq_dec : EqDecision OwnershipRow.
Proof. solve_decision. Defined.
#[global] Instance ComplexityRow_eq_dec : EqDecision ComplexityRow.
Proof. solve_decision. Defined.
#[global] Instance FeatureRow_eq_dec : EqDecision FeatureRow.
Proof. solve_decision. Defined.

(** A rowid table: every row carries the rowid SQLite gave it. *)
Definition Table (R : Type) : Type := list (Z * R).

Definition rows {R} (t : Table R) : list R := t.*2.

(** The largest rowid of a table, 0 when it is empty. *)
Definition max_rowid {R} (t : Table R) : Z := foldr Z.max 0 (t.*1).

(** The rowid SQLite picks for an insert without an explicit rowid. *)
Definition next_rowid {R} (t : Table R) : Z := max_rowid t + 1.

Record Store := mkStore {
  repo_meta : list (string * string);
  commits : Table CommitRow;
  files : list FileRow;
  (** the [sqlite_sequence] counter of the AUTOINCREMENT column [files.id] *)
  files_seq : Z;
  commit_files : Table CommitFileRow;
  ownership : list OwnershipRow;
  complexity : Table ComplexityRow;
  features : Table FeatureRow
}.

Definition empty_store : Store := mkStore [] [] [] 0 [] [] [] [].

(** A connection: the store it writes to and the rowid of the most recent
    successful INSERT made through it (0 on a fresh connection). *)
Record Conn := mkConn {
  db : Store;
  last_insert_rowid : Z
}.

(** [connect]: a fresh connection has made no insert yet. *)
Definition connect (s : Store) : Conn := mkConn s 0.

(** ** Store accessors (db.py) *)

Definition set_commits (s : Store) (t : Table CommitRow) : Store :=
  mkStore (repo_meta s) t (files s) (files_seq s) (commit_files s)
          (ownership s) (complexity s) (features s).

Definition set_files (s : Store) (fs : list FileRow) (seq : Z) : Store :=
  mkStore (repo_meta s) (commits s) fs seq (commit_files s)
          (ownership s) (complexity s) (features s).

Definition set_commit_files (s : Store) (t : Table CommitFileRow) : Store :=
  mkStore (repo_meta s) (commits s) (files s) (files_seq s) t
          (ownership s) (complexity s) (features s).

Definition set_ownership (s : Store) (t : list OwnershipRow) : Store :=
  mkStore (repo_meta s) (commits s) (files s) (files_seq s) (commit_files s)
          t (complexity s) (features s).

Definition set_complexity (s : Store) (t : Table ComplexityRow) : Store :=
  mkStore (repo_meta s) (commits s) (files s) (files_seq s) (commit_files s)
          (ownership s) t (features s).

Definition set_features (s : Store) (t : Table FeatureRow) : Store :=
  mkStore (repo_meta s) (commits s) (files s) (files_seq s) (commit_files s)
          (ownership s) (complexity s) t.

Definition set_repo_meta (s : Store) (m : list (string * string)) : Store :=
  mkStore m (commits s) (files s) (files_seq s) (commit_files s)
          (ownership s) (complexity s) (features s).

(** [SELECT id FROM files WHERE path=?]: the first row with that path.
    A NULL parameter compares equal to nothing. *)
Fixpoint select_file_id (fs : list FileRow) (path : option string) : option Z :=
  match fs with
  | [] => None
  | r :: fs' =>
      match path, f_path r with
      | Some p, Some q =>
          if decide (p = q) then Some (f_id r) else select_file_id fs' path
      | _, _ => select_file_id fs' path
      end
  end.

(** The id an AUTOINCREMENT insert into [files] takes: one more than the
    largest id ever used. *)
Definition next_file_id (s : Store) : Z :=
  Z.max (files_seq s) (foldr Z.max 0 (f_id <$> files s)) + 1.

(** [INSERT OR IGNORE INTO files(path) VALUES (?)].  The id is drawn from
    the sequence before the UNIQUE check, so an ignored insert still
    advances the sequence; only an insert that stores a row changes the
    connection's last insert rowid. *)
Definition insert_or_ignore_file (conn : Conn) (path : option string) : Conn :=
  let s := db conn in
  let i := next_file_id s in
  match select_file_id (files s) path with
  | Some _ => mkConn (set_files s (files s) i) (last_insert_rowid conn)
  | None => mkConn (set_files s (files s ++ [mkFileRow i path]) i) i
  end.

(** [upsert_file].  [conn.execute] returns a new cursor, and after every
    [execute] CPython sets its [lastrowid] to [sqlite3_last_insert_rowid]
    of the connection.  SQLite leaves that value as it was when an
    INSERT OR IGNORE skips the row, so [cur.lastrowid] is then the rowid
    of the most recent insert made through this connection, into any
    table, and it is 0 only while the connection has inserted nothing.
    [None] stands for the [TypeError] raised by [row[0]] when the SELECT
    finds nothing. *)
Definition upsert_file (conn : Conn) (path : option string) : option (Conn * Z) :=
  let conn' := insert_or_ignore_file conn path in
  let lastrowid := last_insert_rowid conn' in
  if decide (lastrowid ≠ 0) then Some (conn', lastrowid)
  else
    match select_file_id (files (db conn')) path with
    | Some i => Some (conn', i)
    | None => None
    end.

(** [set_meta]: insert, or update the value on a key conflict. *)
Fixpoint upsert_meta (m : list (string * string)) (k v : string) : list (string * string) :=
  match m with
  | [] => [(k, v)]
  | (k', v') :: m' =>
      if decide (k' = k) then (k, v) :: m' else (k', v') :: upsert_meta m' k v
  end.

(** [set_meta] and [get_meta] act on the store: [index] calls [set_meta] on
    its first connection and opens a second one before anything reads a
    rowid back. *)
Definition set_meta (s : Store) (k v : string) : Store :=
  set_repo_meta s (upsert_meta (repo_meta s) k v).

Definition get_meta (s : Store) (k : string) : option string :=
  snd <$> head (filter (λ kv, kv.1 = k) (repo_meta s)).

(** One plain INSERT: the row is appended under the next rowid, which
    becomes the connection's last insert rowid. *)
Definition insert_commit_file (conn : Conn) (r : CommitFileRow) : Conn :=
  let t := commit_files (db conn) in
  let i := next_rowid t in
  mkConn (set_commit_files (db conn) (t ++ [(i, r)])) i.

Definition bulk_insert_commit_files (conn : Conn) (rs : list CommitFileRow) : Conn :=
  foldl insert_commit_file conn rs.

(** [INSERT OR IGNORE INTO commits]: a row whose primary key [id] is
    already stored is skipped and leaves the connection untouched. *)
Definition has_commit (t : Table CommitRow) (h : string) : bool :=
  bool_decide (h ∈ c_id <$> rows t).

Definition insert_or_ignore_commit (conn : Conn) (r : CommitRow) : Conn :=
  let t := commits (db conn) in
  if has_commit t (c_id r) then conn
  else
    let i := next_rowid t in
    mkConn (set_commits (db conn) (t ++ [(i, r)])) i.

Definition bulk_insert_commits (conn : Conn) (rs : list CommitRow) : Conn :=
  foldl insert_or_ignore_commit conn rs.

Definition insert_feature (conn : Conn) (r : FeatureRow) : Conn :=
  let t := features (db conn) in
  let i := next_rowid t in
  mkConn (set_features (db conn) (t ++ [(i, r)])) i.

Definition bulk_insert_features (conn : Conn) (rs : list FeatureRow) : Conn :=
  foldl insert_feature conn rs.

(** [INSERT OR REPLACE INTO complexity]: the new rowid is chosen first,
    then the rows with the same primary key (file_id, commit_id) are
    deleted and the new row is stored. *)
Definition same_complexity_key (r r' : ComplexityRow) : Prop :=
  x_file_id r = x_file_id r' ∧ x_commit_id r = x_commit_id r'.

#[global] Instance same_complexity_key_dec r r' : Decision (same_complexity_key r r').
Proof. unfold same_complexity_key. apply _. Defined.

Definition insert_or_replace_complexity (conn : Conn) (r : ComplexityRow) : Conn :=
  let t := complexity (db conn) in
  let i := next_rowid t in
  let kept := filter (λ ir, ¬ same_complexity_key r ir.2) t in
  mkConn (set_complexity (db conn) (kept ++ [(i, r)])) i.

Definition bulk_insert_complexity (conn : Conn) (rs : list ComplexityRow) : Conn :=
  foldl insert_or_replace_complexity conn rs.

(** ** The collaborators of the indexer (git_indexer.py)

    What GitPython hands to [index]: for every commit its identity, its
    per-path statistics and the diff against its first parent. *)

Record Blob := mkBlob {
  is_binary : bool;
  (** [data_stream.read().decode(errors='ignore')] *)
  blob_text : string
}.

Record Diff := mkDiff {
  change_type : string;
  a_path : option string;
  b_path : option string;
  b_blob : option Blob
}.

Record Stat := mkStat {
  insertions : Z;
  deletions : Z
}.

Record Commit := mkCommit {
  hexsha : string;
  author_name : string;
  author_email : string;
  authored_date : Z;
  message : string;
  (** [c.stats.files] *)
  stats_files : gmap string Stat;
  (** [c.diff(parent, create_patch=False, R=False)] *)
  diffs : list Diff
}.

(** What the analyzer reports for one file: [nloc] and the cyclomatic
    complexity of every function of [function_list]. *)
Record Analysis := mkAnalysis {
  nloc : Z;
  function_list : list Z
}.

(** One call of [analyze_code_string]: it raises, returns [None], or
    returns a result. *)
Inductive AnalyzerOut :=
  | ARaises
  | ANone
  | AResult (r : Analysis).

Definition Analyzer : Type := option string → string → AnalyzerOut.

(** The fallback bound when [lizard] cannot be imported. *)
Definition analyze_unavailable : Analyzer := λ _ _, ANone.

(** One match object of [re.finditer]: the named groups it has and the
    whole match. *)
Record ReMatch := mkReMatch {
  group_num : option string;
  group_jira : option string;
  group0 : string
}.

(** The regular-expression engine: all matches of a pattern, given by its
    source text, in a subject string. *)
Definition Finditer : Type := string → string → list ReMatch.

Definition FEATURE_PATTERNS : list string :=
  [ "fixe?s?\s+#(?P<num>\d+)";
    "close[sd]?\s+#(?P<num>\d+)";
    "(?P<jira>[A-Z][A-Z0-9]+-\d+)" ]%string.

Definition WHY_KEYWORDS : list string :=
  [ "why"; "because"; "reason"; "motivation"; "rfc"; "design"; "introduc";
    "decision" ]%string.

(** ** String helpers: [str.upper], [str.lower], [k in s] on ASCII text *)

Definition upper_ascii (a : ascii) : ascii :=
  let n := nat_of_ascii a in
  if bool_decide (97 ≤ n ≤ 122)%nat then ascii_of_nat (n - 32) else a.

Definition lower_ascii (a : ascii) : ascii :=
  let n := nat_of_ascii a in
  if bool_decide (65 ≤ n ≤ 90)%nat then ascii_of_nat (n + 32) else a.

Fixpoint str_map (f : ascii → ascii) (s : string) : string :=
  match s with
  | EmptyString => EmptyString
  | String a s' => String (f a) (str_map f s')
  end.

Definition upper (s : string) : string := str_map upper_ascii s.
Definition lower (s : string) : string := str_map lower_ascii s.

(** [k in s]: [k] occurs in [s] as a substring. *)
Fixpoint contains (k s : string) : bool :=
  String.prefix k s ||
  match s with
  | EmptyString => false
  | String _ s' => contains k s'
  end.

(** Python's [x or y] on optional strings: [None] and the empty string
    are falsy. *)
Definition str_truthy (o : option string) : option string :=
  match o with
  | Some EmptyString => None
  | _ => o
  end.

(** ** [GitIndexer.index] *)

(** [path_eff = new_path if change_type != 'D' else old_path], with
    [change_type = d.change_type.upper()]. *)
Definition change_type_upper (d : Diff) : string := upper (change_type d).

Definition path_eff (d : Diff) : option string :=
  if decide (change_type_upper d ≠ "D"%string) then b_path d else a_path d.

(** [c.stats.files.get(path_eff, {"insertions": 0, "deletions": 0})] *)
Definition stats_get (c : Commit) (p : option string) : Stat :=
  match p with
  | Some q => default (mkStat 0 0) (stats_files c !! q)
  | None => mkStat 0 0
  end.

(** [1 if d.b_blob is not None and d.b_blob.is_binary else 0] *)
Definition is_binary_flag (d : Diff) : Z :=
  match b_blob d with
  | Some b => if is_binary b then 1 else 0
  | None => 0
  end.

Fixpoint sum_Z (l : list Z) : Z :=
  match l with
  | [] => 0
  | x :: l' => x + sum_Z l'
  end.

(** The complexity sample of one diff entry: at most one row, none when
    the entry is a deletion, has no post-change blob, the blob is binary,
    the analyzer raises (the [except Exception: pass]) or returns [None]. *)
Definition complexity_rows (analyze : Analyzer) (c : Commit) (d : Diff)
    (file_id : Z) : list ComplexityRow :=
  if decide (change_type_upper d ≠ "D"%string) then
    match b_blob d with
    | Some b =>
        if is_binary b then []
        else
          match analyze (path_eff d) (blob_text b) with
          | AResult r =>
              [ mkComplexityRow file_id (hexsha c) (nloc r)
                  (sum_Z (function_list r))
                  (Z.of_nat (length (function_list r))) ]
          | ARaises | ANone => []
          end
    | None => []
    end
  else [].

(** [m.groupdict().get("num") or m.groupdict().get("jira") or m.group(0)] *)
Definition match_ref (m : ReMatch) : string :=
  match str_truthy (group_num m) with
  | Some r => r
  | None =>
      match str_truthy (group_jira m) with
      | Some r => r
      | None => group0 m
      end
  end.

Definition pattern_rows (finditer : Finditer) (c : Commit) : list FeatureRow :=
  pat ← FEATURE_PATTERNS;
  m ← finditer pat (message c);
  [ mkFeatureRow (hexsha c) pat (match_ref m) ].

(** [any(k in (c.message or "").lower() for k in WHY_KEYWORDS)] *)
Definition has_why_keyword (msg : string) : bool :=
  existsb (λ k, contains k (lower msg)) WHY_KEYWORDS.

Definition why_rows (c : Commit) : list FeatureRow :=
  if has_why_keyword (message c)
  then [ mkFeatureRow (hexsha c) "why_marker" "1" ]
  else [].

Definition feature_rows (finditer : Finditer) (c : Commit) : list FeatureRow :=
  pattern_rows finditer c ++ why_rows c.

(** The state of the second loop: the connection and the three buffers. *)
Record IndexState := mkIndexState {
  conn : Conn;
  rows_commit_files : list CommitFileRow;
  rows_complex : list ComplexityRow;
  rows_features : list FeatureRow
}.

(** The body of [for d in diffs]. *)
Definition index_diff (analyze : Analyzer) (c : Commit) (st : IndexState)
    (d : Diff) : option IndexState :=
  let stats := stats_get c (path_eff d) in
  '(conn', file_id) ← upsert_file (conn st) (path_eff d);
  Some (mkIndexState conn'
    (rows_commit_files st ++
      [ mkCommitFileRow (hexsha c) file_id (insertions stats) (deletions stats)
          (change_type_upper d) (a_path d) (b_path d) (is_binary_flag d) ])
    (rows_complex st ++ complexity_rows analyze c d file_id)
    (rows_features st)).

Fixpoint index_diffs (analyze : Analyzer) (c : Commit) (st : IndexState)
    (ds : list Diff) : option IndexState :=
  match ds with
  | [] => Some st
  | d :: ds' =>
      st' ← index_diff analyze c st d;
      index_diffs analyze c st' ds'
  end.

(** The flush thresholds of the three buffers. *)
Record Thresholds := mkThresholds {
  th_commit_files : nat;
  th_complex : nat;
  th_features : nat
}.

Definition default_thresholds : Thresholds := mkThresholds 1000 500 1000.

(** "Flush periodically to keep memory in check". *)
Definition flush_periodic (th : Thresholds) (st : IndexState) : IndexState :=
  let st1 :=
    if decide (th_commit_files th ≤ length (rows_commit_files st))%nat
    then mkIndexState (bulk_insert_commit_files (conn st) (rows_commit_files st))
           [] (rows_complex st) (rows_features st)
    else st in
  let st2 :=
    if decide (th_complex th ≤ length (rows_complex st1))%nat
    then mkIndexState (bulk_insert_complexity (conn st1) (rows_complex st1))
           (rows_commit_files st1) [] (rows_features st1)
    else st1 in
  if decide (th_features th ≤ length (rows_features st2))%nat
  then mkIndexState (bulk_insert_features (conn st2) (rows_features st2))
         (rows_commit_files st2) (rows_complex st2) []
  else st2.

(** The body of [for c in commits] of the diff pass. *)
Definition index_commit (th : Thresholds) (analyze : Analyzer)
    (finditer : Finditer) (st : IndexState) (c : Commit) : option IndexState :=
  st1 ← index_diffs analyze c st (diffs c);
  Some (flush_periodic th
    (mkIndexState (conn st1) (rows_commit_files st1) (rows_complex st1)
       (rows_features st1 ++ feature_rows finditer c))).

Fixpoint index_commits (th : Thresholds) (analyze : Analyzer)
    (finditer : Finditer) (st : IndexState) (cs : list Commit) : option IndexState :=
  match cs with
  | [] => Some st
  | c :: cs' =>
      st' ← index_commit th analyze finditer st c;
      index_commits th analyze finditer st' cs'
  end.

(** "Final flush": every buffer that still holds rows is written. *)
Definition final_flush (st : IndexState) : Conn :=
  let c1 := match rows_commit_files st with
            | [] => conn st
            | _ => bulk_insert_commit_files (conn st) (rows_commit_files st)
            end in
  let c2 := match rows_complex st with
            | [] => c1
            | _ => bulk_insert_complexity c1 (rows_complex st)
            end in
  match rows_features st with
  | [] => c2
  | _ => bulk_insert_features c2 (rows_features st)
  end.

Record Repo := mkRepo {
  repo_dir : string;
  (** [list(self.repo.iter_commits("--all"))] *)
  iter_commits : list Commit
}.

Definition commit_row (c : Commit) : CommitRow :=
  mkCommitRow (hexsha c) (author_name c) (author_email c) (authored_date c)
              (message c).

(** [index], with the flush thresholds as a parameter.  [None] is a run
    aborted by an exception. *)
Definition index_with (th : Thresholds) (analyze : Analyzer)
    (finditer : Finditer) (repo : Repo) (s : Store) : option Store :=
  let s0 := set_meta s "repo_dir" (repo_dir repo) in
  let rows_commits := commit_row <$> iter_commits repo in
  let conn0 := bulk_insert_commits (connect s0) rows_commits in
  st ← index_commits th analyze finditer (mkIndexState conn0 [] [] [])
         (iter_commits repo);
  Some (db (final_flush st)).

Definition index : Analyzer → Finditer → Repo → Store → option Store :=
  index_with default_thresholds.

(** ** The three feature patterns on ASCII text

    A pattern is a sequence of items; each of the three patterns is such
    that a greedy left-to-right match never has to give characters back
    (the character after an optional or repeated item is outside its
    class), so no backtracking is modelled.  [\s] and [\d] are the ASCII
    whitespace and digits, [re.I] is ASCII case folding. *)

Inductive ReItem :=
  | ROne (cls : ascii → bool)
  | ROpt (cls : ascii → bool)
  | RPlus (cls : ascii → bool).

Definition ch (a : ascii) : ascii → bool := λ b, bool_decide (a = b).
Definition ch_i (a : ascii) : ascii → bool := λ b, bool_decide (a = lower_ascii b).
Definition in_range (lo hi : nat) : ascii → bool :=
  λ b, bool_decide (lo ≤ nat_of_ascii b ≤ hi)%nat.
Definition re_digit : ascii → bool := in_range 48 57.
Definition re_space : ascii → bool :=
  λ b, in_range 9 13 b || in_range 28 32 b.
Definition re_AZ : ascii → bool := in_range 65 90.
Definition re_AZ09 : ascii → bool := λ b, re_AZ b || re_digit b.

Fixpoint take_while (cls : ascii → bool) (s : list ascii) : list ascii * list ascii :=
  match s with
  | a :: s' =>
      if cls a then let '(p, r) := take_while cls s' in (a :: p, r) else ([], s)
  | [] => ([], [])
  end.

(** Match the items at the start of [s]: the text each item consumed, and
    what is left of [s]. *)
Fixpoint match_items (its : list ReItem) (s : list ascii)
    : option (list (list ascii) * list ascii) :=
  match its with
  | [] => Some ([], s)
  | it :: its' =>
      let continue (p r : list ascii) :=
        '(ps, r') ← match_items its' r; Some (p :: ps, r') in
      match it, s with
      | ROne cls, a :: s' => if cls a then continue [a] s' else None
      | ROne _, [] => None
      | ROpt cls, a :: s' => if cls a then continue [a] s' else continue [] s
      | ROpt _, [] => continue [] s
      | RPlus cls, _ =>
          let '(p, r) := take_while cls s in
          match p with [] => None | _ => continue p r end
      end
  end.

(** A compiled pattern: its items and which named group it defines
    ([true]: [num], the text of the last item; [false]: [jira], the whole
    match). *)
Record Compiled := mkCompiled {
  re_items : list ReItem;
  re_has_num : bool
}.

Definition mk_match (p : Compiled) (pieces : list (list ascii)) : ReMatch :=
  let whole := String.string_of_list_ascii (concat pieces) in
  if re_has_num p
  then mkReMatch (Some (String.string_of_list_ascii (default [] (last pieces)))) None whole
  else mkReMatch None (Some whole) whole.

(** Non-overlapping matches, leftmost first; the search resumes where the
    previous match ended. *)
Fixpoint scan (fuel : nat) (p : Compiled) (s : list ascii) : list ReMatch :=
  match fuel, s with
  | O, _ | _, [] => []
  | S fuel', _ :: s' =>
      match match_items (re_items p) s with
      | Some (pieces, r) => mk_match p pieces :: scan fuel' p r
      | None => scan fuel' p s'
      end
  end.

Definition re_compile (pat : string) : option Compiled :=
  if decide (pat = "fixe?s?\s+#(?P<num>\d+)"%string) then
    Some (mkCompiled
      [ ROne (ch_i "f"); ROne (ch_i "i"); ROne (ch_i "x"); ROpt (ch_i "e");
        ROpt (ch_i "s"); RPlus re_space; ROne (ch "#"); RPlus re_digit ] true)
  else if decide (pat = "close[sd]?\s+#(?P<num>\d+)"%string) then
    Some (mkCompiled
      [ ROne (ch_i "c"); ROne (ch_i "l"); ROne (ch_i "o"); ROne (ch_i "s");
        ROne (ch_i "e"); ROpt (λ b, ch_i "s" b || ch_i "d" b); RPlus re_space;
        ROne (ch "#"); RPlus re_digit ] true)
  else if decide (pat = "(?P<jira>[A-Z][A-Z0-9]+-\d+)"%string) then
    Some (mkCompiled
      [ ROne re_AZ; RPlus re_AZ09; ROne (ch "-"); RPlus re_digit ] false)
  else None.

Definition ascii_finditer : Finditer := λ pat s,
  match re_compile pat with
  | Some p => let l := String.list_ascii_of_string s in scan (length l) p l
  | None => []
  end.

(** ** [compute_ownership] (analysis.py) *)

(** [FROM commit_files cf JOIN commits c ON c.id = cf.commit_id] *)
Definition joined (s : Store) : list (CommitFileRow * CommitRow) :=
  cf ← rows (commit_files s);
  (λ c, (cf, c)) <$> filter (λ c, c_id c = cf_commit_id cf) (rows (commits s)).

(** [GROUP BY cf.file_id, c.author_email] *)
Definition group_key (j : CommitFileRow * CommitRow) : Z * string :=
  (cf_file_id j.1, c_author_email j.2).

Definition group_of (k : Z * string) (js : list (CommitFileRow * CommitRow))
    : list (CommitFileRow * CommitRow) :=
  filter (λ j, group_key j = k) js.

(** MIN and MAX of a group; a group is never empty, 0 stands for the
    NULL of an empty one. *)
Definition min_Z (l : list Z) : Z :=
  match l with
  | [] => 0
  | x :: l' => foldr Z.min x l'
  end.

Definition max_Z (l : list Z) : Z :=
  match l with
  | [] => 0
  | x :: l' => foldr Z.max x l'
  end.

(** The SELECT list, evaluated on one group. *)
Definition aggregate (k : Z * string) (g : list (CommitFileRow * CommitRow))
    : OwnershipRow :=
  mkOwnershipRow k.1 k.2
    (Z.of_nat (length (remove_dups ((λ j, cf_commit_id j.1) <$> g))))
    (sum_Z ((λ j, cf_additions j.1) <$> g))
    (sum_Z ((λ j, cf_deletions j.1) <$> g))
    (min_Z ((λ j, c_authored_date j.2) <$> g))
    (max_Z ((λ j, c_authored_date j.2) <$> g)).

Definition ownership_select (s : Store) : list OwnershipRow :=
  let js := joined s in
  (λ k, aggregate k (group_of k js)) <$> remove_dups (group_key <$> js).

(** The four statements of [compute_ownership], in program order. *)
Inductive Stmt :=
  | StDelete
  | StCommitDelete
  | StInsert
  | StCommitInsert.

#[global] Instance Stmt_eq_dec : EqDecision Stmt.
Proof. solve_decision. Defined.

(** [compute_ownership] under fault injection: [fails st] says that
    statement [st] raises.  An exception ends the call; what the
    connection had not committed is lost with it.  The result is the
    store every later reader sees and whether the call returned. *)
Definition compute_ownership_faulty (fails : Stmt → bool) (s : Store)
    : Store * bool :=
  if fails StDelete then (s, false) else
  let working := set_ownership s [] in
  if fails StCommitDelete then (s, false) else
  let committed := working in
  if fails StInsert then (committed, false) else
  let working' := set_ownership committed (ownership_select committed) in
  if fails StCommitInsert then (committed, false) else
  (working', true).

Definition no_fault : Stmt → bool := λ _, false.

Definition compute_ownership (s : Store) : Store :=
  (compute_ownership_faulty no_fault s).1.

(** ** Notions used in the statements, and example data *)

(** The effective path in the words of the specification: the pre-change
    path for a deletion, the post-change path otherwise. *)
Definition effective_path_spec (d : Diff) : option string :=
  if decide (change_type_upper d = "D"%string) then a_path d else b_path d.

Definition is_why_marker (r : FeatureRow) : Prop := ft_type r = "why_marker"%string.

#[global] Instance is_why_marker_dec r : Decision (is_why_marker r).
Proof. unfold is_why_marker. apply _. Defined.

Definition commit_ids (t : Table CommitRow) : list string := c_id <$> rows t.

(** What [INSERT OR IGNORE INTO commits] does to the table alone. *)
Definition insert_commit_tbl (t : Table CommitRow) (r : CommitRow) : Table CommitRow :=
  if has_commit t (c_id r) then t else t ++ [(next_rowid t, r)].

(** Three commits that each modify the one path [a]. *)
Definition ex_diff_a : Diff :=
  mkDiff "M" (Some "a"%string) (Some "a"%string) (Some (mkBlob false "x")).

Definition ex_commit (h : string) (date : Z) : Commit :=
  mkCommit h "dev" "dev@example.org" date "" ∅ [ex_diff_a].

Definition ex_repo : Repo :=
  mkRepo "/repo" [ex_commit "h1" 10; ex_commit "h2" 11; ex_commit "h3" 12].

(** The file ids written to the change table, in rowid order. *)
Definition change_file_ids (s : Store) : list Z :=
  cf_file_id <$> rows (commit_files s).

(** A commit that adds one binary file and 500 text files, followed by a
    commit that modifies the binary file. *)
Definition ex_path (n : nat) : string :=
  String "p" (String (ascii_of_nat (97 + n / 26))
             (String (ascii_of_nat (97 + n mod 26)) EmptyString)).

Definition ex_text_diff (n : nat) : Diff :=
  mkDiff "A" None (Some (ex_path n)) (Some (mkBlob false "x = 1")).

Definition ex_binary_diff (ct : string) : Diff :=
  mkDiff ct (Some "z"%string) (Some "z"%string) (Some (mkBlob true "")).

Definition ex_big_repo : Repo :=
  mkRepo "/repo"
    [ mkCommit "h1" "dev" "dev@example.org" 10 "" ∅
        (ex_binary_diff "A" :: (ex_text_diff <$> seq 0 500));
      mkCommit "h2" "dev" "dev@example.org" 11 "" ∅ [ex_binary_diff "M"] ].

(** An analyzer that is available and reports one line and no function. *)
Definition ex_analyzer : Analyzer := λ _ _, AResult (mkAnalysis 1 []).

(** A store after a first indexing run and a first successful
    aggregation: its ownership table holds one row. *)
Definition ex_owned_store : Store :=
  compute_ownership
    (default empty_store
       (index analyze_unavailable ascii_finditer ex_repo empty_store)).

(** The aggregation INSERT raises; the DELETE and its commit succeed. *)
Definition fail_insert : Stmt → bool := λ st, bool_decide (st = StInsert).

(** The tables [compute_ownership] never writes. *)
Definition same_base_tables (s s' : Store) : Prop :=
  repo_meta s' = repo_meta s ∧ commits s' = commits s ∧ files s' = files s ∧
  files_seq s' = files_seq s ∧ commit_files s' = commit_files s ∧
  complexity s' = complexity s ∧ features s' = features s.

(** The indexed example store, before any aggregation. *)
Definition ex_indexed_store : Store :=
  default empty_store
    (index analyze_unavailable ascii_finditer ex_repo empty_store).

(** The author recorded for a commit hash. *)
Definition email_of (s : Store) (h : string) : string :=
  default EmptyString
    (c_author_email <$> head (filter (λ c, c_id c = h) (rows (commits s)))).

(** The joined rows of one file. *)
Definition of_file (fid : Z) (j : CommitFileRow * CommitRow) : Prop :=
  cf_file_id j.1 = fid.

#[global] Instance of_file_dec fid j : Decision (of_file fid j).
Proof. unfold of_file. apply _. Defined.

(** The commit ids of the change records of a file, with repetitions. *)
Definition file_commit_ids (s : Store) (fid : Z) : list string :=
  cf_commit_id <$> filter (λ cf, cf_file_id cf = fid) (rows (commit_files s)).

(** The group a commit of the file falls into. *)
Definition file_key (s : Store) (fid : Z) (h : string) : Z * string :=
  (fid, email_of s h).

(** The feature rows written or still buffered. *)
Definition pending_features (st : IndexState) : list FeatureRow :=
  rows (features (db (conn st))) ++ rows_features st.

(** The rationale-marker row of a commit, if it gets one. *)
Definition why_rows_of (cs : list Commit) : list FeatureRow :=
  c ← cs; why_rows c.

(** The scenario of the specification: one commit that adds one file. *)
Definition ex_scenario_repo : Repo :=
  mkRepo "/repo"
    [ mkCommit "abc123" "dev" "dev@example.org" 100
        "Fixes #42 — add login throttle"
        {[ "auth/throttle.go"%string := mkStat 50 0 ]}
        [ mkDiff "A" None (Some "auth/throttle.go"%string)
            (Some (mkBlob false "package auth")) ] ].

(** ** Further notions: store constraints, the commands, the queries *)

(** The primary key of [complexity]. *)
Definition complexity_key (r : ComplexityRow) : Z * string :=
  (x_file_id r, x_commit_id r).

(** The rows stored under one complexity key. *)
Definition complexity_at (t : Table ComplexityRow) (k : Z * string) : list ComplexityRow :=
  filter (λ r, complexity_key r = k) (rows t).

(** The last row of a batch written under a key. *)
Definition last_with_key (rs : list ComplexityRow) (k : Z * string) : option ComplexityRow :=
  last (filter (λ r, complexity_key r = k) rs).

(** The tables [set_meta] never writes. *)
Definition same_data_tables (s s' : Store) : Prop :=
  commits s' = commits s ∧ files s' = files s ∧ files_seq s' = files_seq s ∧
  commit_files s' = commit_files s ∧ ownership s' = ownership s ∧
  complexity s' = complexity s ∧ features s' = features s.

(** The non-NULL paths of the file table. *)
Definition file_paths (s : Store) : list string := omap f_path (files s).

(** The constraints of [files]: unique ids (primary key) and unique
    non-NULL paths (UNIQUE). *)
Definition files_wf (s : Store) : Prop :=
  NoDup (f_id <$> files s) ∧ NoDup (file_paths s).

(** A path has a file row. *)
Definition path_stored (s : Store) (p : string) : Prop :=
  is_Some (select_file_id (files s) (Some p)).

(** The change row [index] buffers for a diff entry, given the file id. *)
Definition change_row (c : Commit) (d : Diff) (file_id : Z) : CommitFileRow :=
  mkCommitFileRow (hexsha c) file_id
    (insertions (stats_get c (path_eff d))) (deletions (stats_get c (path_eff d)))
    (change_type_upper d) (a_path d) (b_path d) (is_binary_flag d).

(** A change row with its file id blanked. *)
Definition without_file_id (r : CommitFileRow) : CommitFileRow :=
  mkCommitFileRow (cf_commit_id r) 0 (cf_additions r) (cf_deletions r)
    (cf_change_type r) (cf_old_path r) (cf_new_path r) (cf_is_binary r).

(** One change row per diff entry, in traversal order, file ids blanked. *)
Definition change_rows_of (cs : list Commit) : list CommitFileRow :=
  c ← cs; (λ d, change_row c d 0) <$> diffs c.

(** What one part of a run does to the file table: rows are only added,
    the constraints are kept. *)
Definition files_extend (s s' : Store) : Prop :=
  files s `prefix_of` files s' ∧ (files_wf s → files_wf s').

(** The change rows written or still buffered. *)
Definition pending_changes (st : IndexState) : list CommitFileRow :=
  rows (commit_files (db (conn st))) ++ rows_commit_files st.

(** An analyzer that raises on every file. *)
Definition analyze_raises : Analyzer := λ _ _, ARaises.

(** An analyzer that never hands back a result. *)
Definition reports_nothing (analyze : Analyzer) : Prop :=
  ∀ path text r, analyze path text ≠ AResult r.

(** The primary key of [ownership]. *)
Definition ownership_key (r : OwnershipRow) : Z * string :=
  (o_file_id r, o_author_email r).

(** The commit table has unique ids and holds every commit a change
    record refers to. *)
Definition commit_refs_ok (s : Store) : Prop :=
  NoDup (commit_ids (commits s)) ∧
  ∀ cf, cf ∈ rows (commit_files s) → cf_commit_id cf ∈ commit_ids (commits s).

(** ** The commands of cli.py *)

(** [index]: index the history, recompute ownership.  [ensure_indexes]
    creates two SQL indexes and changes no row. *)
Definition cli_index (analyze : Analyzer) (finditer : Finditer) (repo : Repo)
    (s : Store) : option Store :=
  s1 ← index analyze finditer repo s;
  Some (compute_ownership s1).

(** [init]: as [index] on the cloned repository, then record the
    database path. *)
Definition cli_init (analyze : Analyzer) (finditer : Finditer) (repo : Repo)
    (db_path : string) (s : Store) : option Store :=
  s1 ← index analyze finditer repo s;
  Some (set_meta (compute_ownership s1) "db_path" db_path).

(** ** The queries of visualize.py *)

(** [(authored_date/604800)*604800]: SQLite divides integers towards
    zero. *)
Definition week_start (c : CommitRow) : Z :=
  Z.quot (c_authored_date c) 604800 * 604800.

(** [COALESCE(cf.additions,0)+COALESCE(cf.deletions,0)] *)
Definition churn_of (j : CommitFileRow * CommitRow) : Z :=
  cf_additions j.1 + cf_deletions j.1.

(** The churn query: one row per week that has a joined change record,
    in ascending order of the week. *)
Definition weekly_churn (s : Store) : list (Z * Z) :=
  let js := joined s in
  (λ w, (w, sum_Z (churn_of <$> filter (λ j, week_start j.2 = w) js)))
    <$> merge_sort Z.le (remove_dups ((λ j, week_start j.2) <$> js)).

(** A string of decimal digits. *)
Definition all_digits (s : string) : Prop :=
  Forall (λ a, re_digit a = true) (String.list_ascii_of_string s).

(** ** qa.py *)




Definition is_alnum (a : ascii) : bool := in_range 97 122 a || re_digit a.

(** [re.split(r"[^a-z0-9]+", q)]: the pieces of [q] between the maximal
    runs of characters outside a-z and 0-9, empty pieces at the ends
    included. *)
Fixpoint re_split_non_alnum (s : list ascii) : list (list ascii) :=
  match s with
  | [] => [[]]
  | a :: s' =>
      if is_alnum a then
        match re_split_non_alnum s' with
        | t :: ts => (a :: t) :: ts
        | [] => [[a]]
        end
      else
        match s' with
        | b :: _ => if is_alnum b then [] :: re_split_non_alnum s'
                    else re_split_non_alnum s'
        | [] => [] :: re_split_non_alnum s'
        end
  end.

(** [[w for w in re.split(r"[^a-z0-9]+", q) if len(w) >= 3]] *)
Definition fallback_keywords (q : string) : list string :=
  String.string_of_list_ascii
    <$> filter (λ w, (3 ≤ length w)%nat)
          (re_split_non_alnum (String.list_ascii_of_string q)).







(** A string of lower-case letters and digits. *)
Definition all_alnum (s : string) : Prop :=
  Forall (λ a, is_alnum a = true) (String.list_ascii_of_string s).

(** Three samples, two of them for the same file and commit. *)
Definition ex_samples : list ComplexityRow :=
  [ mkComplexityRow 1 "h1" 10 2 1; mkComplexityRow 2 "h1" 5 1 1;
    mkComplexityRow 1 "h1" 12 3 2 ].

(** The commit of the scenario. *)
Definition ex_scenario_commit : Commit :=
  mkCommit "abc123" "dev" "dev@example.org" 100
    "Fixes #42 — add login throttle"
    {[ "auth/throttle.go"%string := mkStat 50 0 ]}
    [ mkDiff "A" None (Some "auth/throttle.go"%string)
        (Some (mkBlob false "package auth")) ].

(** The state of the diff pass before its first commit, on an empty store. *)
Definition ex_start_state : IndexState :=
  mkIndexState (connect empty_store) [] [] [].


(** * Properties *)

(** ** File identity *)

Lemma foldr_max_nonneg (l : list Z) : 0 ≤ foldr Z.max 0 l.
Proof. induction l as [|x l IH]; simpl; lia. Qed.

Lemma foldr_max_ge (l : list Z) (x : Z) : x ∈ l → x ≤ foldr Z.max 0 l.
Proof.
  induction l as [|y l IH]; simpl; intros Hx.
  - by apply elem_of_nil in Hx.
  - apply elem_of_cons in Hx as [->|Hx]; [lia|]. specialize (IH Hx). lia.
Qed.

Lemma next_file_id_pos (s : Store) : 1 ≤ next_file_id s.
Proof.
  unfold next_file_id.
  pose proof (foldr_max_nonneg (f_id <$> files s)). lia.
Qed.

Lemma next_file_id_fresh (s : Store) (r : FileRow) :
  r ∈ files s → f_id r < next_file_id s.
Proof.
  intros Hr. unfold next_file_id.
  assert (f_id r ≤ foldr Z.max 0 (f_id <$> files s)).
  { apply foldr_max_ge. apply list_elem_of_fmap. eauto. }
  lia.
Qed.

(** [upsert_file] never raises: when the insert is ignored the path is
    stored, so the SELECT finds it. *)
Lemma upsert_file_total (cn : Conn) (path : option string) :
  ∃ fid, upsert_file cn path = Some (insert_or_ignore_file cn path, fid).
Proof.
  unfold upsert_file.
  destruct (decide (last_insert_rowid (insert_or_ignore_file cn path) ≠ 0))
    as [Hne|Heq]; [eauto|].
  unfold insert_or_ignore_file in *.
  destruct (select_file_id (files (db cn)) path) as [i|] eqn:Hsel; simpl in *.
  - rewrite Hsel. eauto.
  - pose proof (next_file_id_pos (db cn)). lia.
Qed.

(** A path that is not stored yet gets a new row, and its id, larger than
    every id in the table, is returned. *)
Lemma upsert_file_absent (cn : Conn) (path : option string) :
  select_file_id (files (db cn)) path = None →
  ∃ cn', upsert_file cn path = Some (cn', next_file_id (db cn)) ∧
         files (db cn') = files (db cn) ++ [mkFileRow (next_file_id (db cn)) path].
Proof.
  intros Hsel. unfold upsert_file, insert_or_ignore_file. rewrite Hsel. simpl.
  pose proof (next_file_id_pos (db cn)).
  destruct (decide (next_file_id (db cn) ≠ 0)) as [_|Hz]; [eauto | lia].
Qed.

(** A stored path is answered from the connection's last insert rowid
    when there is one, and from the table only on a connection that has
    inserted nothing yet. *)
Lemma upsert_file_present (cn : Conn) (path : option string) (i : Z) :
  select_file_id (files (db cn)) path = Some i →
  ∃ cn', upsert_file cn path
         = Some (cn', if decide (last_insert_rowid cn ≠ 0)
                      then last_insert_rowid cn else i) ∧
         files (db cn') = files (db cn).
Proof.
  intros Hsel. unfold upsert_file, insert_or_ignore_file. rewrite Hsel. simpl.
  destruct (decide (last_insert_rowid cn ≠ 0)); [eauto|].
  rewrite Hsel. eauto.
Qed.

(** ** Diff normalisation *)

Lemma path_eff_spec (d : Diff) : path_eff d = effective_path_spec d.
Proof.
  unfold path_eff, effective_path_spec.
  destruct (decide (change_type_upper d ≠ "D"%string)) as [Hne|Heq];
    destruct (decide (change_type_upper d = "D"%string)) as [He|Hn];
    try reflexivity; contradiction.
Qed.

(** C2. For every diff entry the row appended to the change buffer takes
    its line counts from the commit statistics looked up under the
    effective path and its file id from [upsert_file] called with the
    effective path, where the effective path is the pre-change path when
    the change type is 'D' and the post-change path otherwise. *)
Theorem index_diff_uses_effective_path
    (analyze : Analyzer) (c : Commit) (st : IndexState) (d : Diff) :
  ∃ cn' file_id r st',
    upsert_file (conn st) (effective_path_spec d) = Some (cn', file_id) ∧
    index_diff analyze c st d = Some st' ∧
    conn st' = cn' ∧
    rows_commit_files st' = rows_commit_files st ++ [r] ∧
    cf_file_id r = file_id ∧
    cf_additions r = insertions (stats_get c (effective_path_spec d)) ∧
    cf_deletions r = deletions (stats_get c (effective_path_spec d)) ∧
    (change_type_upper d = "D"%string → effective_path_spec d = a_path d) ∧
    (change_type_upper d ≠ "D"%string → effective_path_spec d = b_path d).
Proof.
  destruct (upsert_file_total (conn st) (path_eff d)) as [fid Hup].
  unfold index_diff. rewrite <- path_eff_spec, Hup. simpl.
  eexists _, fid, _, _. repeat split; try reflexivity.
  - intros HD. rewrite path_eff_spec. unfold effective_path_spec.
    by rewrite decide_True.
  - intros HD. rewrite path_eff_spec. unfold effective_path_spec.
    by rewrite decide_False.
Qed.


(** ** Substring test *)

Lemma prefix_spec (k s : string) :
  String.prefix k s = true ↔ ∃ post, s = k +:+ post.
Proof.
  revert s. induction k as [|a k IH]; intros [|b s]; simpl.
  - split; [intros _; by exists EmptyString | done].
  - split; [intros _; by exists (String b s) | done].
  - split; [done | intros [post Hp]; discriminate].
  - destruct (Ascii.ascii_dec a b) as [->|Hne].
    + rewrite IH. split; intros [post Hp]; exists post.
      * by rewrite Hp.
      * by injection Hp.
    + split; [done | intros [post Hp]; injection Hp; congruence].
Qed.

Lemma contains_unfold (k s : string) :
  contains k s =
  String.prefix k s || match s with
                       | EmptyString => false
                       | String _ s' => contains k s'
                       end.
Proof. by destruct s. Qed.

Lemma contains_spec (k s : string) :
  contains k s = true ↔ ∃ pre post, s = pre +:+ k +:+ post.
Proof.
  induction s as [|b s IH]; rewrite contains_unfold, orb_true_iff, prefix_spec.
  - split.
    + intros [[post Hp]|?]; [|done]. by exists EmptyString, post.
    + intros (pre & post & Hp). left. destruct pre; [by exists post|discriminate].
  - rewrite IH. split.
    + intros [[post Hp]|(pre & post & Hp)].
      * by exists EmptyString, post.
      * exists (String b pre), post. simpl. by rewrite Hp.
    + intros (pre & post & Hp). destruct pre as [|b' pre]; simpl in Hp.
      * left. by exists post.
      * right. exists pre, post. by injection Hp.
Qed.

(** ** Feature and rationale extraction *)

Lemma filter_none {A} (P : A → Prop) `{!∀ x, Decision (P x)} (l : list A) :
  (∀ x, x ∈ l → ¬ P x) → filter P l = [].
Proof.
  induction l as [|x l IH]; intros Hl; [reflexivity|].
  rewrite filter_cons, decide_False.
  - apply IH. intros y Hy. apply Hl. by right.
  - apply Hl. by left.
Qed.

Lemma pattern_rows_type (finditer : Finditer) (c : Commit) (r : FeatureRow) :
  r ∈ pattern_rows finditer c → ft_type r ∈ FEATURE_PATTERNS.
Proof.
  unfold pattern_rows. intros Hr.
  apply list_elem_of_bind in Hr as (pat & Hr & Hpat).
  apply list_elem_of_bind in Hr as (m & Hr & _).
  apply list_elem_of_singleton in Hr as ->. exact Hpat.
Qed.

Lemma why_marker_not_a_pattern : "why_marker"%string ∉ FEATURE_PATTERNS.
Proof.
  unfold FEATURE_PATTERNS. intros Hin.
  repeat (apply elem_of_cons in Hin as [Hin|Hin]; [discriminate|]).
  by apply elem_of_nil in Hin.
Qed.

(** ** The commit table across an indexing run *)

Lemma insert_or_ignore_commit_tbl (cn : Conn) (r : CommitRow) :
  commits (db (insert_or_ignore_commit cn r)) = insert_commit_tbl (commits (db cn)) r.
Proof.
  unfold insert_or_ignore_commit, insert_commit_tbl.
  by destruct (has_commit (commits (db cn)) (c_id r)).
Qed.

Lemma bulk_insert_commits_tbl (cn : Conn) (rs : list CommitRow) :
  commits (db (bulk_insert_commits cn rs)) = foldl insert_commit_tbl (commits (db cn)) rs.
Proof.
  unfold bulk_insert_commits. revert cn.
  induction rs as [|r rs IH]; intros cn; simpl; [reflexivity|].
  by rewrite IH, insert_or_ignore_commit_tbl.
Qed.

Lemma commit_ids_snoc (t : Table CommitRow) (i : Z) (r : CommitRow) :
  commit_ids (t ++ [(i, r)]) = commit_ids t ++ [c_id r].
Proof. unfold commit_ids, rows. by rewrite !fmap_app. Qed.

Lemma has_commit_spec (t : Table CommitRow) (h : string) :
  has_commit t h = true ↔ h ∈ commit_ids t.
Proof. unfold has_commit, commit_ids. apply bool_decide_eq_true. Qed.

Lemma insert_commit_tbl_NoDup (t : Table CommitRow) (r : CommitRow) :
  NoDup (commit_ids t) → NoDup (commit_ids (insert_commit_tbl t r)).
Proof.
  intros Hnd. unfold insert_commit_tbl.
  destruct (has_commit t (c_id r)) eqn:Hhas; [done|].
  rewrite commit_ids_snoc. apply NoDup_app. split; [done|]. split.
  - intros h Hh Hin. apply list_elem_of_singleton in Hin as ->.
    apply has_commit_spec in Hh. congruence.
  - apply NoDup_singleton.
Qed.

Lemma insert_commit_tbl_mono (t : Table CommitRow) (r : CommitRow) (h : string) :
  h ∈ commit_ids t → h ∈ commit_ids (insert_commit_tbl t r).
Proof.
  intros Hh. unfold insert_commit_tbl.
  destruct (has_commit t (c_id r)); [done|].
  rewrite commit_ids_snoc. apply elem_of_app. by left.
Qed.

Lemma insert_commit_tbl_stored (t : Table CommitRow) (r : CommitRow) :
  c_id r ∈ commit_ids (insert_commit_tbl t r).
Proof.
  unfold insert_commit_tbl.
  destruct (has_commit t (c_id r)) eqn:Hhas.
  - by apply has_commit_spec.
  - rewrite commit_ids_snoc. apply elem_of_app. right. by apply list_elem_of_singleton.
Qed.

Lemma foldl_insert_commit_NoDup (rs : list CommitRow) (t : Table CommitRow) :
  NoDup (commit_ids t) → NoDup (commit_ids (foldl insert_commit_tbl t rs)).
Proof.
  revert t. induction rs as [|r rs IH]; intros t Hnd; simpl; [done|].
  apply IH. by apply insert_commit_tbl_NoDup.
Qed.

Lemma foldl_insert_commit_mono (rs : list CommitRow) (t : Table CommitRow) (h : string) :
  h ∈ commit_ids t → h ∈ commit_ids (foldl insert_commit_tbl t rs).
Proof.
  revert t. induction rs as [|r rs IH]; intros t Hh; simpl; [done|].
  apply IH. by apply insert_commit_tbl_mono.
Qed.

Lemma foldl_insert_commit_stored (rs : list CommitRow) (t : Table CommitRow) (r : CommitRow) :
  r ∈ rs → c_id r ∈ commit_ids (foldl insert_commit_tbl t rs).
Proof.
  revert t. induction rs as [|r' rs IH]; intros t Hr; simpl.
  - by apply elem_of_nil in Hr.
  - apply elem_of_cons in Hr as [->|Hr]; [|by apply IH].
    apply foldl_insert_commit_mono, insert_commit_tbl_stored.
Qed.

(** Inserting commits that are all stored already changes nothing. *)
Lemma foldl_insert_commit_idem (rs : list CommitRow) (t : Table CommitRow) :
  (∀ r, r ∈ rs → c_id r ∈ commit_ids t) → foldl insert_commit_tbl t rs = t.
Proof.
  induction rs as [|r rs IH]; intros Hall; simpl; [done|].
  assert (insert_commit_tbl t r = t) as ->.
  { unfold insert_commit_tbl.
    assert (has_commit t (c_id r) = true) as ->; [|done].
    apply has_commit_spec, Hall. by left. }
  apply IH. intros r' Hr'. apply Hall. by right.
Qed.

(** Nothing after the metadata pass writes to [commits]. *)
Lemma foldl_keeps {A B X} (f : A → B → A) (g : A → X) (l : list B) (a : A) :
  (∀ a b, g (f a b) = g a) → g (foldl f a l) = g a.
Proof.
  intros Hf. revert a. induction l as [|b l IH]; intros a; simpl; [done|].
  by rewrite IH, Hf.
Qed.

Lemma insert_or_ignore_file_commits (cn : Conn) (path : option string) :
  commits (db (insert_or_ignore_file cn path)) = commits (db cn).
Proof.
  unfold insert_or_ignore_file.
  by destruct (select_file_id (files (db cn)) path).
Qed.

Lemma bulk_insert_commit_files_commits (cn : Conn) (rs : list CommitFileRow) :
  commits (db (bulk_insert_commit_files cn rs)) = commits (db cn).
Proof. apply (foldl_keeps _ (λ cn, commits (db cn))). done. Qed.

Lemma bulk_insert_complexity_commits (cn : Conn) (rs : list ComplexityRow) :
  commits (db (bulk_insert_complexity cn rs)) = commits (db cn).
Proof. apply (foldl_keeps _ (λ cn, commits (db cn))). done. Qed.

Lemma bulk_insert_features_commits (cn : Conn) (rs : list FeatureRow) :
  commits (db (bulk_insert_features cn rs)) = commits (db cn).
Proof. apply (foldl_keeps _ (λ cn, commits (db cn))). done. Qed.

Lemma index_diff_total (analyze : Analyzer) (c : Commit) (st : IndexState) (d : Diff) :
  ∃ st', index_diff analyze c st d = Some st' ∧
         commits (db (conn st')) = commits (db (conn st)) ∧
         rows_features st' = rows_features st.
Proof.
  destruct (upsert_file_total (conn st) (path_eff d)) as [fid Hup].
  unfold index_diff. rewrite Hup. simpl. eexists. split; [reflexivity|].
  simpl. split; [apply insert_or_ignore_file_commits | reflexivity].
Qed.

Lemma index_diffs_total (analyze : Analyzer) (c : Commit) (ds : list Diff) (st : IndexState) :
  ∃ st', index_diffs analyze c st ds = Some st' ∧
         commits (db (conn st')) = commits (db (conn st)) ∧
         rows_features st' = rows_features st.
Proof.
  revert st. induction ds as [|d ds IH]; intros st; simpl; [eauto|].
  destruct (index_diff_total analyze c st d) as (st1 & -> & Hc1 & Hf1). simpl.
  destruct (IH st1) as (st2 & -> & Hc2 & Hf2).
  exists st2. split; [done|]. split; congruence.
Qed.

Lemma flush_periodic_commits (th : Thresholds) (st : IndexState) :
  commits (db (conn (flush_periodic th st))) = commits (db (conn st)).
Proof.
  unfold flush_periodic.
  repeat (case_decide; simpl);
    rewrite ?bulk_insert_features_commits, ?bulk_insert_complexity_commits,
      ?bulk_insert_commit_files_commits; reflexivity.
Qed.

Lemma index_commit_total (th : Thresholds) (analyze : Analyzer)
    (finditer : Finditer) (st : IndexState) (c : Commit) :
  ∃ st', index_commit th analyze finditer st c = Some st' ∧
         commits (db (conn st')) = commits (db (conn st)).
Proof.
  unfold index_commit.
  destruct (index_diffs_total analyze c (diffs c) st) as (st1 & -> & Hc1 & _).
  simpl. eexists. split; [reflexivity|].
  by rewrite flush_periodic_commits.
Qed.

Lemma index_commits_total (th : Thresholds) (analyze : Analyzer)
    (finditer : Finditer) (cs : list Commit) (st : IndexState) :
  ∃ st', index_commits th analyze finditer st cs = Some st' ∧
         commits (db (conn st')) = commits (db (conn st)).
Proof.
  revert st. induction cs as [|c cs IH]; intros st; simpl; [eauto|].
  destruct (index_commit_total th analyze finditer st c) as (st1 & -> & Hc1).
  simpl. destruct (IH st1) as (st2 & -> & Hc2).
  exists st2. split; [done|congruence].
Qed.

Lemma final_flush_commits (st : IndexState) :
  commits (db (final_flush st)) = commits (db (conn st)).
Proof.
  unfold final_flush.
  destruct (rows_features st), (rows_complex st), (rows_commit_files st);
    rewrite ?bulk_insert_features_commits, ?bulk_insert_complexity_commits,
      ?bulk_insert_commit_files_commits; reflexivity.
Qed.

(** An indexing run always completes, and its commit table is the one
    left by the metadata pass. *)
Lemma index_with_total (th : Thresholds) (analyze : Analyzer)
    (finditer : Finditer) (repo : Repo) (s : Store) :
  ∃ s', index_with th analyze finditer repo s = Some s' ∧
        commits s' = foldl insert_commit_tbl (commits s) (commit_row <$> iter_commits repo).
Proof.
  unfold index_with.
  edestruct (index_commits_total th analyze finditer (iter_commits repo))
    as (st & -> & Hc).
  simpl. eexists. split; [reflexivity|].
  rewrite final_flush_commits, Hc. simpl.
  by rewrite bulk_insert_commits_tbl.
Qed.

Lemma one_row_per_id (l : list CommitRow) (h : string) :
  NoDup (c_id <$> l) → h ∈ c_id <$> l →
  length (filter (λ r, c_id r = h) l) = 1%nat.
Proof.
  induction l as [|r l IH]; simpl; intros Hnd Hin.
  - by apply elem_of_nil in Hin.
  - apply NoDup_cons in Hnd as [Hnotin Hnd]. rewrite filter_cons.
    destruct (decide (c_id r = h)) as [Heq|Hne].
    + subst h. rewrite filter_none; [reflexivity|].
      intros r' Hr' Heq. apply Hnotin. rewrite <- Heq.
      by apply list_elem_of_fmap_2.
    + apply IH; [done|].
      apply elem_of_cons in Hin as [Heq|Hin]; [congruence|done].
Qed.

(** C4. Indexing the same commits twice into a store whose commit table
    respects its primary key does not fail either time; the second run
    leaves the commit table as the first one left it, and the table holds
    exactly one row for the hash of every indexed commit. *)
Theorem index_twice_one_commit_row
    (analyze : Analyzer) (finditer : Finditer) (repo : Repo) (s : Store) :
  NoDup (commit_ids (commits s)) →
  ∃ s1 s2,
    index analyze finditer repo s = Some s1 ∧
    index analyze finditer repo s1 = Some s2 ∧
    commits s2 = commits s1 ∧
    NoDup (commit_ids (commits s2)) ∧
    ∀ c, c ∈ iter_commits repo →
      length (filter (λ r, c_id r = hexsha c) (rows (commits s2))) = 1%nat.
Proof.
  intros Hnd. unfold index.
  destruct (index_with_total default_thresholds analyze finditer repo s)
    as (s1 & Hrun1 & Hc1).
  destruct (index_with_total default_thresholds analyze finditer repo s1)
    as (s2 & Hrun2 & Hc2).
  assert (∀ c, c ∈ iter_commits repo → hexsha c ∈ commit_ids (commits s1)) as Hin1.
  { intros c Hc. rewrite Hc1.
    apply (foldl_insert_commit_stored _ _ (commit_row c)).
    by apply list_elem_of_fmap_2. }
  assert (commits s2 = commits s1) as Hsame.
  { rewrite Hc2. apply foldl_insert_commit_idem.
    intros r Hr. apply list_elem_of_fmap in Hr as (c & -> & Hc).
    by apply Hin1. }
  assert (NoDup (commit_ids (commits s1))) as Hnd1.
  { rewrite Hc1. by apply foldl_insert_commit_NoDup. }
  exists s1, s2. rewrite Hsame. repeat split; try done.
  intros c Hc. apply one_row_per_id; [done|]. by apply Hin1.
Qed.

Lemma index_twice_one_commit_row_witness :
  ∃ s1 s2,
    index analyze_unavailable ascii_finditer ex_repo empty_store = Some s1 ∧
    index analyze_unavailable ascii_finditer ex_repo s1 = Some s2 ∧
    commits s2 = commits s1 ∧
    NoDup (commit_ids (commits s2)) ∧
    ∀ c, c ∈ iter_commits ex_repo →
      length (filter (λ r, c_id r = hexsha c) (rows (commits s2))) = 1%nat.
Proof.
  apply (index_twice_one_commit_row analyze_unavailable ascii_finditer
           ex_repo empty_store).
  simpl. constructor.
Defined.

(** ** The feature table across an indexing run *)

Lemma rows_snoc {R} (t : Table R) (i : Z) (r : R) :
  rows (t ++ [(i, r)]) = rows t ++ [r].
Proof. unfold rows. by rewrite fmap_app. Qed.

Lemma bulk_insert_features_rows (rs : list FeatureRow) (cn : Conn) :
  rows (features (db (bulk_insert_features cn rs))) = rows (features (db cn)) ++ rs.
Proof.
  unfold bulk_insert_features. revert cn.
  induction rs as [|r rs IH]; intros cn; simpl; [by rewrite app_nil_r|].
  rewrite IH. unfold insert_feature. simpl.
  by rewrite rows_snoc, <- app_assoc.
Qed.

Lemma bulk_insert_commit_files_features (cn : Conn) (rs : list CommitFileRow) :
  features (db (bulk_insert_commit_files cn rs)) = features (db cn).
Proof. apply (foldl_keeps _ (λ cn, features (db cn))). done. Qed.

Lemma bulk_insert_complexity_features (cn : Conn) (rs : list ComplexityRow) :
  features (db (bulk_insert_complexity cn rs)) = features (db cn).
Proof. apply (foldl_keeps _ (λ cn, features (db cn))). done. Qed.

Lemma bulk_insert_commits_features (cn : Conn) (rs : list CommitRow) :
  features (db (bulk_insert_commits cn rs)) = features (db cn).
Proof.
  apply (foldl_keeps _ (λ cn, features (db cn))). intros a b.
  unfold insert_or_ignore_commit. by destruct (has_commit _ _).
Qed.

Lemma index_diff_pending (analyze : Analyzer) (c : Commit) (st st' : IndexState) (d : Diff) :
  index_diff analyze c st d = Some st' → pending_features st' = pending_features st.
Proof.
  destruct (upsert_file_total (conn st) (path_eff d)) as [fid Hup].
  unfold index_diff. rewrite Hup. simpl. intros [= <-].
  unfold pending_features, insert_or_ignore_file. simpl.
  by destruct (select_file_id _ _).
Qed.

Lemma index_diffs_pending (analyze : Analyzer) (c : Commit) (ds : list Diff)
    (st st' : IndexState) :
  index_diffs analyze c st ds = Some st' → pending_features st' = pending_features st.
Proof.
  revert st. induction ds as [|d ds IH]; intros st; simpl.
  - by intros [= ->].
  - destruct (index_diff analyze c st d) as [st1|] eqn:Hd; [|done]. simpl.
    intros Hds. rewrite (IH _ Hds). by eapply index_diff_pending.
Qed.

Lemma flush_periodic_pending (th : Thresholds) (st : IndexState) :
  pending_features (flush_periodic th st) = pending_features st.
Proof.
  unfold flush_periodic, pending_features.
  repeat (case_decide; simpl);
    rewrite ?bulk_insert_features_rows, ?bulk_insert_complexity_features,
      ?bulk_insert_commit_files_features, ?app_nil_r; reflexivity.
Qed.

Lemma index_commit_pending (th : Thresholds) (analyze : Analyzer)
    (finditer : Finditer) (st st' : IndexState) (c : Commit) :
  index_commit th analyze finditer st c = Some st' →
  pending_features st' = pending_features st ++ feature_rows finditer c.
Proof.
  unfold index_commit.
  destruct (index_diffs analyze c st (diffs c)) as [st1|] eqn:Hds; [|done].
  simpl. intros [= <-]. rewrite flush_periodic_pending.
  apply index_diffs_pending in Hds. unfold pending_features in *. simpl.
  by rewrite app_assoc, Hds.
Qed.

Lemma index_commits_pending (th : Thresholds) (analyze : Analyzer)
    (finditer : Finditer) (cs : list Commit) (st st' : IndexState) :
  index_commits th analyze finditer st cs = Some st' →
  pending_features st' = pending_features st ++ (cs ≫= feature_rows finditer).
Proof.
  revert st. induction cs as [|c cs IH]; intros st; simpl.
  - intros [= ->]. by rewrite app_nil_r.
  - destruct (index_commit th analyze finditer st c) as [st1|] eqn:Hc; [|done].
    simpl. intros Hcs. rewrite (IH _ Hcs).
    apply index_commit_pending in Hc. by rewrite Hc, app_assoc.
Qed.

Lemma final_flush_features (st : IndexState) :
  rows (features (db (final_flush st))) = pending_features st.
Proof.
  unfold final_flush, pending_features.
  destruct (rows_features st), (rows_complex st), (rows_commit_files st);
    rewrite ?bulk_insert_features_rows, ?bulk_insert_complexity_features,
      ?bulk_insert_commit_files_features, ?app_nil_r; reflexivity.
Qed.

(** The feature table after a run: the rows it held, followed by the
    feature rows of every commit in traversal order, whatever the
    thresholds and the analyzer. *)
Lemma index_with_features (th : Thresholds) (analyze : Analyzer)
    (finditer : Finditer) (repo : Repo) (s : Store) :
  ∃ s', index_with th analyze finditer repo s = Some s' ∧
        rows (features s')
          = rows (features s) ++ (iter_commits repo ≫= feature_rows finditer).
Proof.
  unfold index_with.
  destruct (index_commits th analyze finditer _ (iter_commits repo))
    as [st|] eqn:Hrun.
  - simpl. eexists. split; [reflexivity|].
    rewrite final_flush_features. apply index_commits_pending in Hrun.
    rewrite Hrun. unfold pending_features. simpl.
    by rewrite bulk_insert_commits_features, app_nil_r.
  - destruct (index_commits_total th analyze finditer (iter_commits repo)
      (mkIndexState
         (bulk_insert_commits (connect (set_meta s "repo_dir" (repo_dir repo)))
            (commit_row <$> iter_commits repo)) [] [] [])) as (st & Hst & _).
    congruence.
Qed.

Lemma filter_bind {A B} (P : B → Prop) `{!∀ y, Decision (P y)}
    (f : A → list B) (l : list A) :
  filter P (l ≫= f) = l ≫= (λ x, filter P (f x)).
Proof.
  induction l as [|x l IH]; [reflexivity|].
  by rewrite !bind_cons, filter_app, IH.
Qed.

Lemma feature_rows_why_marker (finditer : Finditer) (c : Commit) :
  filter is_why_marker (feature_rows finditer c) = why_rows c.
Proof.
  unfold feature_rows. rewrite filter_app.
  rewrite (filter_none is_why_marker (pattern_rows finditer c)).
  - unfold why_rows. by destruct (has_why_keyword (message c)).
  - intros r Hr Hw. apply pattern_rows_type in Hr.
    unfold is_why_marker in Hw. rewrite Hw in Hr.
    by apply why_marker_not_a_pattern.
Qed.

Lemma bind_why_marker (finditer : Finditer) (cs : list Commit) :
  cs ≫= (λ c, filter is_why_marker (feature_rows finditer c)) = why_rows_of cs.
Proof.
  unfold why_rows_of. induction cs as [|c cs IH]; [reflexivity|].
  by rewrite !bind_cons, IH, feature_rows_why_marker.
Qed.

Lemma has_why_keyword_spec (msg : string) :
  has_why_keyword msg = true ↔
  ∃ k pre post, k ∈ WHY_KEYWORDS ∧ lower msg = pre +:+ k +:+ post.
Proof.
  unfold has_why_keyword. rewrite existsb_exists. split.
  - intros (k & Hin & Hk). apply contains_spec in Hk as (pre & post & Hk).
    exists k, pre, post. split; [by apply list_elem_of_In | done].
  - intros (k & pre & post & Hin & Hk). exists k.
    split; [by apply list_elem_of_In|]. apply contains_spec. eauto.
Qed.

(** C6. Every run of the indexer adds to the feature table, for each
    commit in turn, exactly one rationale-marker row when the lower-cased
    message contains a word of the fixed vocabulary and none otherwise:
    the marker rows of the table after the run are those it held before
    followed by one row per such commit, and the rows of a single commit
    hold one marker or none, never one per matching keyword. *)
Theorem why_marker_once_per_commit (th : Thresholds) (analyze : Analyzer)
    (finditer : Finditer) (repo : Repo) (s : Store) :
  WHY_KEYWORDS = [ "why"; "because"; "reason"; "motivation"; "rfc"; "design";
                   "introduc"; "decision" ]%string ∧
  (∀ c, has_why_keyword (message c) = true ↔
     ∃ k pre post, k ∈ WHY_KEYWORDS ∧ lower (message c) = pre +:+ k +:+ post) ∧
  (∀ c, filter is_why_marker (feature_rows finditer c)
        = if has_why_keyword (message c)
          then [ mkFeatureRow (hexsha c) "why_marker" "1" ] else []) ∧
  (∀ c, length (filter is_why_marker (feature_rows finditer c))
        = if has_why_keyword (message c) then 1%nat else 0%nat) ∧
  ∃ s', index_with th analyze finditer repo s = Some s' ∧
        filter is_why_marker (rows (features s'))
          = filter is_why_marker (rows (features s)) ++ why_rows_of (iter_commits repo).
Proof.
  split; [reflexivity|]. split; [intros c; apply has_why_keyword_spec|].
  split; [intros c; rewrite feature_rows_why_marker; reflexivity|]. split.
  - intros c. rewrite feature_rows_why_marker. unfold why_rows.
    by destruct (has_why_keyword (message c)).
  - destruct (index_with_features th analyze finditer repo s) as (s' & Hrun & Hrows).
    exists s'. split; [done|].
    by rewrite Hrows, filter_app, filter_bind, bind_why_marker.
Qed.

(** ** Complexity sampling without an analyzer *)

(** An entry gets no complexity row when the analyzer is the fallback
    that returns [None], or when it raises. *)
Lemma complexity_rows_unavailable (c : Commit) (d : Diff) (file_id : Z) :
  complexity_rows analyze_unavailable c d file_id = [] ∧
  complexity_rows (λ _ _, ARaises) c d file_id = [].
Proof.
  unfold complexity_rows, analyze_unavailable.
  destruct (decide (change_type_upper d ≠ "D"%string)); [|done].
  destruct (b_blob d) as [b|]; [|done]. by destruct (is_binary b).
Qed.

(** The scenario of the specification: one commit row, one change row of
    type A with 50 additions, one issue reference 42 and no rationale
    marker. *)
Example scenario_fixes_42 :
  (λ s, (rows (commits s), rows (commit_files s), rows (features s),
         rows (complexity s)))
    <$> index analyze_unavailable ascii_finditer ex_scenario_repo empty_store
  = Some
      ( [ mkCommitRow "abc123" "dev" "dev@example.org" 100
            "Fixes #42 — add login throttle" ],
        [ mkCommitFileRow "abc123" 1 50 0 "A" None
            (Some "auth/throttle.go"%string) 0 ],
        [ mkFeatureRow "abc123" "fixe?s?\s+#(?P<num>\d+)" "42" ],
        [] ).
Proof. vm_compute. reflexivity. Qed.

(** ** File identity on a connection that has already inserted *)

(** C9 (defect). On one connection, resolving [a], then [b], then [a]
    again returns 1, 2 and 2: the third call is handed the rowid of the
    insert of [b], although [a] is stored under id 1.  The same path is
    given two ids and two distinct paths share one. *)
Theorem upsert_file_stale_rowid :
  ∃ cn1 cn2 cn3,
    upsert_file (connect empty_store) (Some "a"%string) = Some (cn1, 1) ∧
    upsert_file cn1 (Some "b"%string) = Some (cn2, 2) ∧
    upsert_file cn2 (Some "a"%string) = Some (cn3, 2) ∧
    select_file_id (files (db cn3)) (Some "a"%string) = Some 1 ∧
    select_file_id (files (db cn3)) (Some "b"%string) = Some 2.
Proof. eexists _, _, _. vm_compute. repeat split. Qed.

(** C8 (defect). Three commits that each modify the path [a]: flushing
    after every commit stores the third change under file id 2, the
    batched run under file id 1.  The flush moves the connection's last
    insert rowid, which [upsert_file] then returns for the stored path. *)
Theorem index_depends_on_flush_thresholds :
  change_file_ids <$> index_with (mkThresholds 1 1 1) analyze_unavailable
                        ascii_finditer ex_repo empty_store
    = Some [1; 1; 2] ∧
  change_file_ids <$> index analyze_unavailable ascii_finditer ex_repo empty_store
    = Some [1; 1; 1] ∧
  files <$> index analyze_unavailable ascii_finditer ex_repo empty_store
    = Some [mkFileRow 1 (Some "a"%string)].
Proof. vm_compute. repeat split. Qed.

(** C7 (defect). With the analyzer available the 500 complexity rows of
    the first commit are flushed before the second commit is read, and
    the change of [z] in the second commit is stored under file id 500;
    without the analyzer nothing is flushed and it is stored under file
    id 501.  The change rows of the two runs differ (and [z] has id 1). *)
Theorem index_changes_depend_on_analyzer :
  last <$> (change_file_ids <$>
     index ex_analyzer ascii_finditer ex_big_repo empty_store) = Some (Some 500) ∧
  last <$> (change_file_ids <$>
     index analyze_unavailable ascii_finditer ex_big_repo empty_store) = Some (Some 501) ∧
  (λ s, select_file_id (files s) (Some "z"%string)) <$>
     index analyze_unavailable ascii_finditer ex_big_repo empty_store = Some (Some 1).
Proof. vm_compute. repeat split. Qed.

(** ** Ownership recomputation under failure *)

(** C1 (counterexample). Starting from a store whose ownership table was
    filled by a successful run, a recomputation whose aggregation step
    fails does not return, and leaves an empty ownership table behind
    instead of the prior rows. *)
Lemma compute_ownership_not_atomic :
  ownership ex_owned_store
    = [ mkOwnershipRow 1 "dev@example.org" 3 0 0 10 12 ] ∧
  (compute_ownership_faulty fail_insert ex_owned_store).2 = false ∧
  ownership (compute_ownership_faulty fail_insert ex_owned_store).1 = [] ∧
  ownership (compute_ownership_faulty fail_insert ex_owned_store).1
    ≠ ownership ex_owned_store.
Proof. vm_compute. repeat split. discriminate. Qed.

(** C1 (amended). The recomputation is two separately committed steps.
    If the DELETE or its commit fails, the ownership table keeps its prior
    rows; if the aggregation INSERT or its commit fails after that, the
    table is left empty; a run in which nothing fails leaves exactly the
    rows of the aggregation query.  No other table changes. *)
Theorem compute_ownership_two_commits (fails : Stmt → bool) (s : Store) :
  let s' := (compute_ownership_faulty fails s).1 in
  let returned := (compute_ownership_faulty fails s).2 in
  same_base_tables s s' ∧
  (returned = true ↔ ∀ st, fails st = false) ∧
  (fails StDelete || fails StCommitDelete = true → ownership s' = ownership s) ∧
  (fails StDelete || fails StCommitDelete = false →
   fails StInsert || fails StCommitInsert = true → ownership s' = []) ∧
  (returned = true → ownership s' = ownership_select s).
Proof.
  unfold compute_ownership_faulty, same_base_tables.
  destruct (fails StDelete) eqn:H1; [|destruct (fails StCommitDelete) eqn:H2;
    [|destruct (fails StInsert) eqn:H3; [|destruct (fails StCommitInsert) eqn:H4]]];
    simpl; repeat split; try done; try (intros Hall; congruence).
  intros _ st. by destruct st.
Qed.

(** ** The ownership aggregate *)

Lemma compute_ownership_table (s : Store) :
  ownership (compute_ownership s) = ownership_select s.
Proof. reflexivity. Qed.

(** Every stored row is the aggregate of a non-empty group. *)
Lemma ownership_select_row (s : Store) (r : OwnershipRow) :
  r ∈ ownership_select s →
  ∃ k j, r = aggregate k (group_of k (joined s)) ∧ j ∈ group_of k (joined s).
Proof.
  unfold ownership_select. intros Hr.
  apply list_elem_of_fmap in Hr as (k & -> & Hk).
  apply elem_of_remove_dups, list_elem_of_fmap in Hk as (j & -> & Hj).
  exists (group_key j), j. split; [done|].
  unfold group_of. by apply list_elem_of_filter.
Qed.

Lemma joined_elem (s : Store) (j : CommitFileRow * CommitRow) :
  j ∈ joined s ↔
  j.1 ∈ rows (commit_files s) ∧ j.2 ∈ rows (commits s) ∧ c_id j.2 = cf_commit_id j.1.
Proof.
  unfold joined. rewrite list_elem_of_bind. split.
  - intros (cf & Hj & Hcf). apply list_elem_of_fmap in Hj as (c & -> & Hc).
    apply list_elem_of_filter in Hc as [Hid Hc]. done.
  - intros (Hcf & Hc & Hid). exists j.1. split; [|done].
    apply list_elem_of_fmap. exists j.2. split; [by destruct j|].
    by apply list_elem_of_filter.
Qed.

Lemma sum_Z_nonneg (l : list Z) : (∀ x, x ∈ l → 0 ≤ x) → 0 ≤ sum_Z l.
Proof.
  induction l as [|x l IH]; simpl; intros Hl; [lia|].
  assert (0 ≤ x) by (apply Hl; by left).
  assert (0 ≤ sum_Z l) by (apply IH; intros y Hy; apply Hl; by right).
  lia.
Qed.

Lemma foldr_min_le (l : list Z) (x : Z) : foldr Z.min x l ≤ x.
Proof. induction l as [|y l IH]; simpl; lia. Qed.

Lemma foldr_max_le (l : list Z) (x : Z) : x ≤ foldr Z.max x l.
Proof. induction l as [|y l IH]; simpl; lia. Qed.

Lemma min_Z_le_max_Z (l : list Z) : min_Z l ≤ max_Z l.
Proof.
  destruct l as [|x l]; simpl; [lia|].
  pose proof (foldr_min_le l x). pose proof (foldr_max_le l x). lia.
Qed.

(** C10. Every row written by [compute_ownership] counts at least one
    commit and has its first timestamp no later than its last; when the
    stored addition and deletion counts are non-negative, so are the
    row's line totals. *)
Theorem ownership_row_consistent (s : Store) (r : OwnershipRow) :
  r ∈ ownership (compute_ownership s) →
  1 ≤ o_commits r ∧
  o_first_commit r ≤ o_last_commit r ∧
  ((∀ cf, cf ∈ rows (commit_files s) → 0 ≤ cf_additions cf ∧ 0 ≤ cf_deletions cf) →
   0 ≤ o_lines_added r ∧ 0 ≤ o_lines_deleted r).
Proof.
  rewrite compute_ownership_table. intros Hr.
  apply ownership_select_row in Hr as (k & j & -> & Hj). simpl.
  split; [|split].
  - assert (cf_commit_id j.1
            ∈ remove_dups ((λ j, cf_commit_id j.1) <$> group_of k (joined s))) as Hin.
    { apply elem_of_remove_dups, list_elem_of_fmap. by exists j. }
    destruct (remove_dups _) as [|h l]; [by apply elem_of_nil in Hin|].
    simpl. lia.
  - apply min_Z_le_max_Z.
  - intros Hnn. split; apply sum_Z_nonneg; intros x Hx;
      apply list_elem_of_fmap in Hx as (j' & -> & Hj');
      apply list_elem_of_filter in Hj' as [_ Hj'];
      apply joined_elem in Hj' as (Hcf & _); destruct (Hnn _ Hcf); simpl; lia.
Qed.

Lemma ownership_row_consistent_witness :
  let r := mkOwnershipRow 1 "dev@example.org" 3 0 0 10 12 in
  1 ≤ o_commits r ∧
  o_first_commit r ≤ o_last_commit r ∧
  ((∀ cf, cf ∈ rows (commit_files ex_indexed_store) →
      0 ≤ cf_additions cf ∧ 0 ≤ cf_deletions cf) →
   0 ≤ o_lines_added r ∧ 0 ≤ o_lines_deleted r).
Proof.
  apply (ownership_row_consistent ex_indexed_store).
  vm_compute. left.
Defined.

(** ** Counting distinct commits per file *)

Lemma filter_ext_in {A} (P Q : A → Prop) `{!∀ x, Decision (P x)}
    `{!∀ x, Decision (Q x)} (l : list A) :
  (∀ x, x ∈ l → P x ↔ Q x) → filter P l = filter Q l.
Proof.
  induction l as [|x l IH]; intros Hl; [reflexivity|].
  rewrite !filter_cons.
  assert (filter P l = filter Q l) as ->.
  { apply IH. intros y Hy. apply Hl. by right. }
  assert (P x ↔ Q x) as Hx by (apply Hl; by left).
  destruct (decide (P x)), (decide (Q x)); tauto.
Qed.

Lemma filter_fmap_comm {A B} (f : A → B) (P : B → Prop)
    `{!∀ y, Decision (P y)} (l : list A) :
  filter P (f <$> l) = f <$> filter (λ x, P (f x)) l.
Proof.
  induction l as [|x l IH]; [reflexivity|].
  rewrite fmap_cons, !filter_cons, IH.
  by destruct (decide (P (f x))).
Qed.

Lemma remove_dups_filter {A} `{!EqDecision A} (P : A → Prop)
    `{!∀ x, Decision (P x)} (l : list A) :
  remove_dups (filter P l) = filter P (remove_dups l).
Proof.
  induction l as [|x l IH]; [reflexivity|].
  rewrite filter_cons. simpl.
  destruct (decide (P x)) as [HP|HP]; simpl.
  - destruct (decide_rel elem_of x (filter P l)) as [Hin|Hin];
      destruct (decide_rel elem_of x l) as [Hin'|Hin'].
    + done.
    + apply list_elem_of_filter in Hin as [_ ?]. contradiction.
    + exfalso. apply Hin. by apply list_elem_of_filter.
    + rewrite filter_cons, decide_True by done. by rewrite IH.
  - destruct (decide_rel elem_of x l) as [Hin'|Hin']; [done|].
    by rewrite filter_cons, decide_False.
Qed.

Lemma sum_Z_indicator {B} `{!EqDecision B} (K : list B) (b : B) :
  NoDup K → b ∈ K →
  sum_Z ((λ k, if decide (b = k) then 1 else 0) <$> K) = 1.
Proof.
  induction K as [|k K IH]; intros Hnd Hin.
  - by apply elem_of_nil in Hin.
  - apply NoDup_cons in Hnd as [Hk Hnd]. rewrite fmap_cons. simpl.
    destruct (decide (b = k)) as [->|Hne].
    + assert (sum_Z ((λ k0, if decide (k = k0) then 1 else 0) <$> K) = 0) as ->; [|lia].
      clear IH Hin Hnd. induction K as [|k' K IH]; [reflexivity|].
      rewrite fmap_cons. simpl. rewrite decide_False.
      * rewrite IH; [lia|]. intros ?. apply Hk. by right.
      * intros ->. apply Hk. by left.
    + apply elem_of_cons in Hin as [?|Hin]; [done|]. rewrite IH by done. lia.
Qed.

(** Cutting a list into the classes of a key and counting each class
    counts every element once. *)
Lemma sum_Z_partition {A B} `{!EqDecision B} (g : A → B) (K : list B) (l : list A) :
  NoDup K → (∀ x, x ∈ l → g x ∈ K) →
  sum_Z ((λ k, Z.of_nat (length (filter (λ x, g x = k) l))) <$> K)
    = Z.of_nat (length l).
Proof.
  intros Hnd. induction l as [|x l IH]; intros Hl.
  - simpl. clear Hnd Hl. induction K as [|k K IHK]; [reflexivity|].
    rewrite fmap_cons. simpl. by rewrite IHK.
  - assert (sum_Z ((λ k, Z.of_nat (length (filter (λ y, g y = k) (x :: l)))) <$> K)
            = sum_Z ((λ k, if decide (g x = k) then 1 else 0) <$> K)
              + sum_Z ((λ k, Z.of_nat (length (filter (λ y, g y = k) l))) <$> K)) as ->.
    { clear. induction K as [|k K IHK]; [reflexivity|].
      rewrite !fmap_cons. simpl sum_Z. rewrite IHK, filter_cons.
      destruct (decide (g x = k)); simpl length; lia. }
    rewrite sum_Z_indicator, IH; [simpl length; lia| |done|].
    + intros y Hy. apply Hl. by right.
    + apply Hl. by left.
Qed.

Section ownership_totals.
Variable s : Store.
Variable fid : Z.

(** The primary key of [commits], and every change record of the file
    referring to a stored commit. *)
Hypothesis commits_pk : NoDup (commit_ids (commits s)).
Hypothesis changes_fk :
  ∀ cf, cf ∈ rows (commit_files s) → cf_file_id cf = fid →
        cf_commit_id cf ∈ commit_ids (commits s).

Lemma unique_commit (h : string) :
  h ∈ commit_ids (commits s) →
  ∃ c, filter (λ c, c_id c = h) (rows (commits s)) = [c].
Proof using commits_pk.
  intros Hh. pose proof (one_row_per_id _ h commits_pk Hh) as Hlen.
  destruct (filter _ _) as [|c [|c' l]]; try discriminate. by exists c.
Qed.

Lemma joined_email (j : CommitFileRow * CommitRow) :
  j ∈ joined s → c_author_email j.2 = email_of s (cf_commit_id j.1).
Proof using commits_pk.
  intros Hj. apply joined_elem in Hj as (_ & Hc & Hid).
  assert (cf_commit_id j.1 ∈ commit_ids (commits s)) as Hin.
  { rewrite <- Hid. by apply list_elem_of_fmap_2. }
  destruct (unique_commit _ Hin) as [c Hc'].
  assert (j.2 ∈ filter (λ c, c_id c = cf_commit_id j.1) (rows (commits s))) as Hf
    by (by apply list_elem_of_filter).
  unfold email_of. rewrite Hc' in Hf |- *.
  by apply list_elem_of_singleton in Hf as ->.
Qed.

Lemma joined_file_commit_ids :
  (λ j, cf_commit_id j.1) <$> filter (of_file fid) (joined s)
    = file_commit_ids s fid.
Proof using commits_pk changes_fk.
  unfold joined, file_commit_ids. revert changes_fk.
  generalize (rows (commit_files s)) as l.
  induction l as [|cf l IH]; intros Hfk; [reflexivity|].
  rewrite bind_cons, filter_app, fmap_app, IH, filter_cons.
  2:{ intros cf' Hcf'. apply Hfk. by right. }
  destruct (decide (cf_file_id cf = fid)) as [Hf|Hf].
  - destruct (unique_commit (cf_commit_id cf)) as [c ->].
    { apply Hfk; [by left|done]. }
    simpl. rewrite filter_cons, decide_True by done. reflexivity.
  - rewrite filter_none; [reflexivity|].
    intros j Hj. apply list_elem_of_fmap in Hj as (c & -> & _). done.
Qed.

Lemma group_commit_ids (k : Z * string) :
  k.1 = fid →
  (λ j, cf_commit_id j.1) <$> group_of k (joined s)
    = filter (λ h, file_key s fid h = k) (file_commit_ids s fid).
Proof using commits_pk changes_fk.
  intros Hk. rewrite <- joined_file_commit_ids, filter_fmap_comm.
  f_equal. unfold group_of. rewrite list_filter_filter.
  apply filter_ext_in. intros j Hj.
  unfold group_key, file_key, of_file. rewrite (joined_email j Hj).
  destruct k as [f e]. simpl in Hk. subst f. split.
  - intros [= Hf He]. by rewrite Hf, He.
  - intros [[= He] Hf]. by rewrite Hf, He.
Qed.

Lemma file_key_stored (h : string) :
  h ∈ file_commit_ids s fid →
  file_key s fid h ∈ filter (λ k, k.1 = fid) (remove_dups (group_key <$> joined s)).
Proof using commits_pk changes_fk.
  rewrite <- joined_file_commit_ids. intros Hh.
  apply list_elem_of_fmap in Hh as (j & -> & Hj).
  apply list_elem_of_filter in Hj as [Hf Hj].
  apply list_elem_of_filter. split; [done|].
  apply elem_of_remove_dups, list_elem_of_fmap. exists j. split; [|done].
  unfold file_key, group_key. rewrite (joined_email j Hj). by rewrite Hf.
Qed.

(** C5. After [compute_ownership], the [commits] column summed over the
    ownership rows of a file equals the number of distinct commit ids
    among the change records of that file, when the commit table respects
    its primary key and holds every commit those records refer to. *)
Theorem ownership_commit_sum :
  sum_Z (o_commits <$> filter (λ r, o_file_id r = fid) (ownership (compute_ownership s)))
    = Z.of_nat (length (remove_dups
        (cf_commit_id <$> filter (λ cf, cf_file_id cf = fid) (rows (commit_files s))))).
Proof using commits_pk changes_fk.
  fold (file_commit_ids s fid).
  rewrite compute_ownership_table. unfold ownership_select.
  rewrite filter_fmap_comm, <- list_fmap_compose.
  set (K := filter _ (remove_dups _)).
  rewrite <- (sum_Z_partition (file_key s fid) K (remove_dups (file_commit_ids s fid))).
  - f_equal. apply Forall_fmap_ext, Forall_forall. intros k Hk.
    apply list_elem_of_filter in Hk as [Hk _]. simpl in Hk. simpl.
    by rewrite group_commit_ids, remove_dups_filter.
  - apply NoDup_filter, NoDup_remove_dups.
  - intros h Hh. rewrite elem_of_remove_dups in Hh.
    by apply file_key_stored.
Qed.
End ownership_totals.

Lemma ownership_commit_sum_witness :
  sum_Z (o_commits <$> filter (λ r, o_file_id r = 1)
           (ownership (compute_ownership ex_indexed_store)))
    = Z.of_nat (length (remove_dups
        (cf_commit_id <$> filter (λ cf, cf_file_id cf = 1)
           (rows (commit_files ex_indexed_store))))).
Proof.
  apply (ownership_commit_sum ex_indexed_store 1).
  - apply (bool_decide_unpack _). vm_compute. exact I.
  - intros cf Hcf _. revert cf Hcf.
    apply (proj1 (Forall_forall
      (λ cf, cf_commit_id cf ∈ commit_ids (commits ex_indexed_store)) _)).
    apply (bool_decide_unpack _). vm_compute. exact I.
Defined.

(** * Further properties *)

(** ** Key-value metadata *)

Lemma get_upsert_meta_eq (m : list (string * string)) (k v : string) :
  head (filter (λ kv, kv.1 = k) (upsert_meta m k v)) = Some (k, v).
Proof.
  induction m as [|[k' v'] m IH]; simpl.
  - by rewrite filter_cons, decide_True.
  - destruct (decide (k' = k)) as [->|Hne].
    + by rewrite filter_cons, decide_True.
    + by rewrite filter_cons, decide_False.
Qed.

Lemma get_upsert_meta_ne (m : list (string * string)) (k k' v : string) :
  k' ≠ k →
  filter (λ kv, kv.1 = k') (upsert_meta m k v) = filter (λ kv, kv.1 = k') m.
Proof.
  intros Hne. induction m as [|[k0 v0] m IH]; simpl.
  - by rewrite filter_cons, decide_False.
  - destruct (decide (k0 = k)) as [->|Hne0].
    + rewrite !filter_cons. simpl. by rewrite !decide_False by done.
    + rewrite !filter_cons, IH. done.
Qed.

Lemma upsert_meta_keys (m : list (string * string)) (k v : string) :
  (upsert_meta m k v).*1 = if bool_decide (k ∈ m.*1) then m.*1 else m.*1 ++ [k].
Proof.
  induction m as [|[k0 v0] m IH]; [done|].
  cbn [upsert_meta]. destruct (decide (k0 = k)) as [->|Hne]; rewrite !fmap_cons; cbn [fst].
  - rewrite bool_decide_eq_true_2; [done|by left].
  - rewrite IH. destruct (bool_decide (k ∈ m.*1)) eqn:Hin.
    + rewrite bool_decide_eq_true_2; [done|]. right. by apply bool_decide_eq_true in Hin.
    + rewrite bool_decide_eq_false_2; [done|]. apply bool_decide_eq_false in Hin.
      intros Hc. apply elem_of_cons in Hc as [?|?]; congruence.
Qed.

(** X1. [set_meta] then [get_meta] of the same key returns the value just
    written, whatever was stored before; every other key reads as before;
    the keys stay unique; no data table changes. *)
Theorem set_meta_get_meta (s : Store) (k v : string) :
  get_meta (set_meta s k v) k = Some v ∧
  (∀ k', k' ≠ k → get_meta (set_meta s k v) k' = get_meta s k') ∧
  (NoDup (repo_meta s).*1 → NoDup (repo_meta (set_meta s k v)).*1) ∧
  same_data_tables s (set_meta s k v).
Proof.
  unfold get_meta, set_meta. simpl. split; [|split; [|split]].
  - by rewrite get_upsert_meta_eq.
  - intros k' Hne. by rewrite get_upsert_meta_ne.
  - intros Hnd. rewrite upsert_meta_keys. case_bool_decide as Hin; [done|].
    apply NoDup_app. split; [done|]. split; [|apply NoDup_singleton].
    intros x Hx Hx'. apply list_elem_of_singleton in Hx'. congruence.
  - done.
Qed.

(** A key that was never set reads as [None]. *)
Lemma get_meta_missing (s : Store) (k : string) :
  k ∉ (repo_meta s).*1 → get_meta s k = None.
Proof.
  intros Hk. unfold get_meta. rewrite filter_none; [done|].
  intros [k' v'] Hin Heq. simpl in Heq. subst k'. apply Hk.
  apply list_elem_of_fmap. by exists (k, v').
Qed.

(** ** Complexity samples: insert or replace *)

Lemma rows_filter {R} (P : R → Prop) `{!∀ r, Decision (P r)} (t : list (Z * R)) :
  rows (filter (λ ir, P ir.2) t) = filter P (rows t).
Proof.
  unfold rows. induction t as [|[i r] t IH]; [done|].
  rewrite filter_cons, fmap_cons, filter_cons. cbn [snd].
  destruct (decide (P r)); [rewrite fmap_cons; cbn [snd]|]; by rewrite IH.
Qed.

Lemma insert_or_replace_complexity_rows (cn : Conn) (r : ComplexityRow) :
  rows (complexity (db (insert_or_replace_complexity cn r)))
    = filter (λ r', complexity_key r' ≠ complexity_key r)
        (rows (complexity (db cn))) ++ [r].
Proof.
  unfold insert_or_replace_complexity. simpl.
  rewrite rows_snoc. f_equal. unfold Table.
  rewrite (@rows_filter _ (λ r', ¬ same_complexity_key r r')
             (λ r', @not_dec _ (same_complexity_key_dec r r'))).
  apply filter_ext_in. intros r' _.
  unfold same_complexity_key, complexity_key. split.
  - intros Hn [= H1 H2]. apply Hn. by rewrite H1, H2.
  - intros Hn [H1 H2]. apply Hn. by rewrite H1, H2.
Qed.

Lemma insert_or_replace_complexity_at (cn : Conn) (r : ComplexityRow) (k : Z * string) :
  complexity_at (complexity (db (insert_or_replace_complexity cn r))) k
    = if decide (complexity_key r = k) then [r]
      else complexity_at (complexity (db cn)) k.
Proof.
  unfold complexity_at. rewrite insert_or_replace_complexity_rows, filter_app.
  rewrite list_filter_filter, filter_cons.
  destruct (decide (complexity_key r = k)) as [Hk|Hk].
  - rewrite filter_none; [done|]. intros r' _ [H1 H2]. congruence.
  - rewrite filter_nil, app_nil_r. apply filter_ext_in. intros r' _.
    split; [by intros [? _]|]. intros H1. split; [done|congruence].
Qed.

Lemma bulk_insert_complexity_at (rs : list ComplexityRow) (cn : Conn) (k : Z * string) :
  complexity_at (complexity (db (bulk_insert_complexity cn rs))) k
    = match last_with_key rs k with
      | Some r => [r]
      | None => complexity_at (complexity (db cn)) k
      end.
Proof.
  unfold bulk_insert_complexity, last_with_key. revert cn.
  induction rs as [|r rs IH]; intros cn; simpl; [done|].
  rewrite IH, filter_cons, insert_or_replace_complexity_at.
  destruct (decide (complexity_key r = k)) as [Hk|Hk]; [|done].
  rewrite last_cons. by destruct (last (filter _ rs)).
Qed.

Lemma NoDup_fmap_filter_le1 {A B} `{!EqDecision B} (f : A → B) (l : list A) :
  NoDup (f <$> l) ↔ ∀ k, (length (filter (λ x, f x = k) l) ≤ 1)%nat.
Proof.
  induction l as [|x l IH]; simpl.
  - split; [intros _ k; simpl; lia | intros _; constructor].
  - rewrite NoDup_cons, IH. split.
    + intros [Hx Hl] k. rewrite filter_cons.
      destruct (decide (f x = k)) as [<-|Hne]; [|apply Hl].
      rewrite filter_none; [simpl; lia|].
      intros y Hy Heq. apply Hx. rewrite <- Heq. by apply list_elem_of_fmap_2.
    + intros Hall. split.
      * intros Hin. apply list_elem_of_fmap in Hin as (y & Hy & Hin).
        specialize (Hall (f x)). rewrite filter_cons, decide_True in Hall by done.
        assert (y ∈ filter (λ x0, f x0 = f x) l) as Hf by (by apply list_elem_of_filter).
        destruct (filter _ l); [by apply elem_of_nil in Hf|]. simpl in Hall. lia.
      * intros k. specialize (Hall k). rewrite filter_cons in Hall.
        destruct (decide (f x = k)); simpl in Hall; lia.
Qed.

(** X2. [bulk_insert_complexity] keeps the primary key (file, commit)
    unique, and the last row of the batch written under a key is the one
    stored: a key the batch mentions holds exactly that row afterwards, a
    key it does not mention keeps what it had. *)
Theorem bulk_insert_complexity_last_wins (cn : Conn) (rs : list ComplexityRow) :
  NoDup (complexity_key <$> rows (complexity (db cn))) →
  NoDup (complexity_key <$> rows (complexity (db (bulk_insert_complexity cn rs)))) ∧
  ∀ k, complexity_at (complexity (db (bulk_insert_complexity cn rs))) k
       = match last_with_key rs k with
         | Some r => [r]
         | None => complexity_at (complexity (db cn)) k
         end.
Proof.
  intros Hnd. split; [|intros k; apply bulk_insert_complexity_at].
  apply NoDup_fmap_filter_le1. intros k.
  fold (complexity_at (complexity (db (bulk_insert_complexity cn rs))) k).
  rewrite bulk_insert_complexity_at.
  destruct (last_with_key rs k); [simpl; lia|].
  by apply NoDup_fmap_filter_le1.
Qed.

(** ** File rows *)

Lemma select_file_id_app (fs fs' : list FileRow) (path : option string) :
  select_file_id (fs ++ fs') path
    = match select_file_id fs path with
      | Some i => Some i
      | None => select_file_id fs' path
      end.
Proof.
  induction fs as [|r fs IH]; [done|]. simpl.
  destruct path as [p|], (f_path r) as [q|]; try done.
  by destruct (decide (p = q)).
Qed.

Lemma select_file_id_NULL (fs : list FileRow) : select_file_id fs None = None.
Proof. induction fs as [|r fs IH]; [done|]. simpl. by destruct (f_path r). Qed.

Lemma select_file_id_None (fs : list FileRow) (p : string) :
  select_file_id fs (Some p) = None ↔ p ∉ omap f_path fs.
Proof.
  induction fs as [|r fs IH]; simpl.
  - split; [intros _; apply not_elem_of_nil | done].
  - destruct (f_path r) as [q|]; simpl; [|done].
    destruct (decide (p = q)) as [->|Hne].
    + split; [done|]. intros Hn. exfalso. apply Hn. by left.
    + rewrite IH. split.
      * intros Hn Hin. apply elem_of_cons in Hin as [?|?]; done.
      * intros Hn Hin. apply Hn. by right.
Qed.

Lemma select_file_id_Some (fs : list FileRow) (p : string) (i : Z) :
  select_file_id fs (Some p) = Some i → mkFileRow i (Some p) ∈ fs.
Proof.
  induction fs as [|[j [q|]] fs IH]; simpl; [done| |].
  - destruct (decide (p = q)) as [->|Hne].
    + intros [= <-]. by left.
    + intros Hs. right. by apply IH.
  - intros Hs. right. by apply IH.
Qed.

Lemma insert_or_ignore_file_result (cn : Conn) (path : option string) :
  (select_file_id (files (db cn)) path = None ∧
   files (db (insert_or_ignore_file cn path))
     = files (db cn) ++ [mkFileRow (next_file_id (db cn)) path]) ∨
  (is_Some (select_file_id (files (db cn)) path) ∧
   files (db (insert_or_ignore_file cn path)) = files (db cn)).
Proof.
  unfold insert_or_ignore_file.
  destruct (select_file_id (files (db cn)) path) eqn:Hs; simpl; eauto.
Qed.

Lemma insert_or_ignore_file_wf (cn : Conn) (path : option string) :
  files_wf (db cn) → files_wf (db (insert_or_ignore_file cn path)).
Proof.
  intros [Hid Hp]. unfold files_wf, file_paths.
  destruct (insert_or_ignore_file_result cn path) as [[Hs ->]|[_ ->]]; [|done].
  rewrite fmap_app, omap_app. simpl. split.
  - apply NoDup_app. split; [done|]. split; [|apply NoDup_singleton].
    intros i Hi Hi'. apply list_elem_of_singleton in Hi' as ->.
    apply list_elem_of_fmap in Hi as (r & Heq & Hr).
    apply next_file_id_fresh in Hr. lia.
  - destruct path as [p|]; simpl; [|by rewrite app_nil_r].
    apply NoDup_app. split; [done|]. split; [|apply NoDup_singleton].
    intros q Hq Hq'. apply list_elem_of_singleton in Hq' as ->.
    by apply select_file_id_None in Hs.
Qed.

Lemma insert_or_ignore_file_stored (cn : Conn) (p : string) :
  path_stored (db (insert_or_ignore_file cn (Some p))) p.
Proof.
  unfold path_stored.
  destruct (insert_or_ignore_file_result cn (Some p)) as [[Hs ->]|[Hs ->]]; [|done].
  rewrite select_file_id_app, Hs. simpl. by rewrite decide_True.
Qed.

Lemma path_stored_prefix (s s' : Store) (p : string) :
  files s `prefix_of` files s' → path_stored s p → path_stored s' p.
Proof.
  intros [ext Hext] [i Hi]. unfold path_stored.
  by rewrite Hext, select_file_id_app, Hi.
Qed.

Lemma insert_or_ignore_file_prefix (cn : Conn) (path : option string) :
  files (db cn) `prefix_of` files (db (insert_or_ignore_file cn path)).
Proof.
  destruct (insert_or_ignore_file_result cn path) as [[_ ->]|[_ ->]];
    [by apply prefix_app_r | done].
Qed.

(** X3. Resolving a path that has no file row stores one new row for it
    and returns that row's id, which is positive and larger than every
    id of the table; rows already stored are kept, and the path resolves
    to the new id from then on. *)
Theorem upsert_file_new_path (cn : Conn) (p : string) :
  select_file_id (files (db cn)) (Some p) = None →
  ∃ cn' i,
    upsert_file cn (Some p) = Some (cn', i) ∧
    files (db cn') = files (db cn) ++ [mkFileRow i (Some p)] ∧
    0 < i ∧ (∀ r, r ∈ files (db cn) → f_id r < i) ∧
    select_file_id (files (db cn')) (Some p) = Some i.
Proof.
  intros Hs. destruct (upsert_file_absent cn (Some p) Hs) as (cn' & Hup & Hf).
  exists cn', (next_file_id (db cn)). split; [done|]. split; [done|].
  pose proof (next_file_id_pos (db cn)). split; [lia|]. split.
  - intros r Hr. by apply next_file_id_fresh.
  - rewrite Hf, select_file_id_app, Hs. simpl. by rewrite decide_True.
Qed.

(** X4. On a connection that has made no insert yet, resolving a stored
    path returns the id it is stored under, writes no row, and leaves the
    connection without an insert, so any number of such look-ups in a
    row are answered from the table. *)
Theorem upsert_file_lookup_before_insert (cn : Conn) (p : string) (i : Z) :
  last_insert_rowid cn = 0 →
  select_file_id (files (db cn)) (Some p) = Some i →
  ∃ cn',
    upsert_file cn (Some p) = Some (cn', i) ∧
    files (db cn') = files (db cn) ∧
    last_insert_rowid cn' = 0 ∧
    mkFileRow i (Some p) ∈ files (db cn).
Proof.
  intros H0 Hs. unfold upsert_file, insert_or_ignore_file. rewrite Hs. simpl.
  rewrite H0. simpl. rewrite Hs. eexists. repeat split; try done.
  by apply select_file_id_Some.
Qed.

(** X5. [upsert_file] keeps the constraints of the file table (unique ids,
    unique paths), never removes or rewrites a row, and leaves the path
    it was given stored, whatever id it returns. *)
Theorem upsert_file_keeps_files (cn cn' : Conn) (path : option string) (i : Z) :
  upsert_file cn path = Some (cn', i) →
  files (db cn) `prefix_of` files (db cn') ∧
  (files_wf (db cn) → files_wf (db cn')) ∧
  (∀ p, path = Some p → path_stored (db cn') p) ∧
  (∀ p, path_stored (db cn) p → path_stored (db cn') p).
Proof.
  destruct (upsert_file_total cn path) as [fid Hup]. rewrite Hup.
  intros [= <- <-]. split; [apply insert_or_ignore_file_prefix|].
  split; [apply insert_or_ignore_file_wf|]. split.
  - intros p ->. apply insert_or_ignore_file_stored.
  - intros p. apply path_stored_prefix, insert_or_ignore_file_prefix.
Qed.

(** ** The file table across an indexing run *)

Lemma bulk_insert_commit_files_files (cn : Conn) (rs : list CommitFileRow) :
  files (db (bulk_insert_commit_files cn rs)) = files (db cn).
Proof. apply (foldl_keeps _ (λ cn, files (db cn))). done. Qed.

Lemma bulk_insert_complexity_files (cn : Conn) (rs : list ComplexityRow) :
  files (db (bulk_insert_complexity cn rs)) = files (db cn).
Proof. apply (foldl_keeps _ (λ cn, files (db cn))). done. Qed.

Lemma bulk_insert_features_files (cn : Conn) (rs : list FeatureRow) :
  files (db (bulk_insert_features cn rs)) = files (db cn).
Proof. apply (foldl_keeps _ (λ cn, files (db cn))). done. Qed.

Lemma bulk_insert_commits_files (cn : Conn) (rs : list CommitRow) :
  files (db (bulk_insert_commits cn rs)) = files (db cn).
Proof.
  apply (foldl_keeps _ (λ cn, files (db cn))). intros a b.
  unfold insert_or_ignore_commit. by destruct (has_commit _ _).
Qed.

Lemma flush_periodic_files (th : Thresholds) (st : IndexState) :
  files (db (conn (flush_periodic th st))) = files (db (conn st)).
Proof.
  unfold flush_periodic.
  repeat (case_decide; simpl);
    rewrite ?bulk_insert_features_files, ?bulk_insert_complexity_files,
      ?bulk_insert_commit_files_files; reflexivity.
Qed.

Lemma final_flush_files (st : IndexState) :
  files (db (final_flush st)) = files (db (conn st)).
Proof.
  unfold final_flush.
  destruct (rows_features st), (rows_complex st), (rows_commit_files st);
    rewrite ?bulk_insert_features_files, ?bulk_insert_complexity_files,
      ?bulk_insert_commit_files_files; reflexivity.
Qed.

Lemma files_extend_refl (s s' : Store) : files s' = files s → files_extend s s'.
Proof. intros Heq. unfold files_extend, files_wf, file_paths. by rewrite Heq. Qed.

Lemma files_extend_trans (s1 s2 s3 : Store) :
  files_extend s1 s2 → files_extend s2 s3 → files_extend s1 s3.
Proof.
  intros [Hp1 Hw1] [Hp2 Hw2]. split; [by etrans|]. intros Hw. by apply Hw2, Hw1.
Qed.

Lemma index_diff_files (analyze : Analyzer) (c : Commit) (st st' : IndexState) (d : Diff) :
  index_diff analyze c st d = Some st' →
  files_extend (db (conn st)) (db (conn st')) ∧
  ∀ p, path_eff d = Some p → path_stored (db (conn st')) p.
Proof.
  destruct (upsert_file_total (conn st) (path_eff d)) as [fid Hup].
  unfold index_diff. rewrite Hup. simpl. intros [= <-]. simpl. split.
  - split; [apply insert_or_ignore_file_prefix | apply insert_or_ignore_file_wf].
  - intros p ->. apply insert_or_ignore_file_stored.
Qed.

Lemma index_diffs_files (analyze : Analyzer) (c : Commit) (ds : list Diff)
    (st st' : IndexState) :
  index_diffs analyze c st ds = Some st' →
  files_extend (db (conn st)) (db (conn st')) ∧
  ∀ d p, d ∈ ds → path_eff d = Some p → path_stored (db (conn st')) p.
Proof.
  revert st. induction ds as [|d ds IH]; intros st; simpl.
  - intros [= ->]. split; [by apply files_extend_refl|].
    intros d p Hd. by apply elem_of_nil in Hd.
  - destruct (index_diff analyze c st d) as [st1|] eqn:Hd; [|done]. simpl.
    intros Hds. apply index_diff_files in Hd as [Hext1 Hst1].
    apply IH in Hds as [Hext2 Hst2]. split; [by eapply files_extend_trans|].
    intros d' p Hin Hp. apply elem_of_cons in Hin as [->|Hin]; [|by eapply Hst2].
    eapply path_stored_prefix; [apply Hext2|]. by apply Hst1.
Qed.

Lemma index_commit_files (th : Thresholds) (analyze : Analyzer)
    (finditer : Finditer) (st st' : IndexState) (c : Commit) :
  index_commit th analyze finditer st c = Some st' →
  files_extend (db (conn st)) (db (conn st')) ∧
  ∀ d p, d ∈ diffs c → path_eff d = Some p → path_stored (db (conn st')) p.
Proof.
  unfold index_commit.
  destruct (index_diffs analyze c st (diffs c)) as [st1|] eqn:Hds; [|done].
  simpl. intros [= <-]. apply index_diffs_files in Hds as [Hext Hst].
  unfold files_extend, path_stored, files_wf, file_paths in *.
  rewrite flush_periodic_files. simpl. done.
Qed.

Lemma index_commits_files (th : Thresholds) (analyze : Analyzer)
    (finditer : Finditer) (cs : list Commit) (st st' : IndexState) :
  index_commits th analyze finditer st cs = Some st' →
  files_extend (db (conn st)) (db (conn st')) ∧
  ∀ c d p, c ∈ cs → d ∈ diffs c → path_eff d = Some p →
           path_stored (db (conn st')) p.
Proof.
  revert st. induction cs as [|c cs IH]; intros st; simpl.
  - intros [= ->]. split; [by apply files_extend_refl|].
    intros c d p Hc. by apply elem_of_nil in Hc.
  - destruct (index_commit th analyze finditer st c) as [st1|] eqn:Hc; [|done].
    simpl. intros Hcs. apply index_commit_files in Hc as [Hext1 Hst1].
    apply IH in Hcs as [Hext2 Hst2]. split; [by eapply files_extend_trans|].
    intros c' d p Hin Hd Hp.
    apply elem_of_cons in Hin as [->|Hin]; [|by eapply Hst2].
    eapply path_stored_prefix; [apply Hext2|]. by eapply Hst1.
Qed.

Lemma index_with_run (th : Thresholds) (analyze : Analyzer)
    (finditer : Finditer) (repo : Repo) (s : Store) :
  ∃ st,
    index_commits th analyze finditer
      (mkIndexState
         (bulk_insert_commits (connect (set_meta s "repo_dir" (repo_dir repo)))
            (commit_row <$> iter_commits repo)) [] [] [])
      (iter_commits repo) = Some st ∧
    index_with th analyze finditer repo s = Some (db (final_flush st)).
Proof.
  unfold index_with.
  edestruct (index_commits_total th analyze finditer (iter_commits repo))
    as (st & Hst & _).
  exists st. split; [exact Hst|]. by rewrite Hst.
Qed.

(** X6. An indexing run only adds rows to the file table and keeps its
    constraints, and afterwards every path that is the effective path of
    a diff entry of an indexed commit has a file row. *)
Theorem index_stores_touched_paths (th : Thresholds) (analyze : Analyzer)
    (finditer : Finditer) (repo : Repo) (s : Store) :
  ∃ s', index_with th analyze finditer repo s = Some s' ∧
    files s `prefix_of` files s' ∧
    (files_wf s → files_wf s') ∧
    ∀ c d p, c ∈ iter_commits repo → d ∈ diffs c → path_eff d = Some p →
             ∃ i, select_file_id (files s') (Some p) = Some i ∧
                  mkFileRow i (Some p) ∈ files s'.
Proof.
  destruct (index_with_run th analyze finditer repo s) as (st & Hrun & ->).
  eexists. split; [reflexivity|].
  apply index_commits_files in Hrun as [[Hpre Hwf] Hst].
  unfold files_wf, file_paths, path_stored in *. rewrite final_flush_files.
  simpl in Hpre, Hwf. rewrite bulk_insert_commits_files in Hpre, Hwf.
  simpl in Hpre, Hwf. split; [done|]. split; [done|].
  intros c d p Hc Hd Hp. destruct (Hst c d p Hc Hd Hp) as [i Hi].
  exists i. split; [done|]. by apply select_file_id_Some.
Qed.

(** ** The change table across an indexing run *)

Lemma bulk_insert_commit_files_rows (rs : list CommitFileRow) (cn : Conn) :
  rows (commit_files (db (bulk_insert_commit_files cn rs)))
    = rows (commit_files (db cn)) ++ rs.
Proof.
  unfold bulk_insert_commit_files. revert cn.
  induction rs as [|r rs IH]; intros cn; simpl; [by rewrite app_nil_r|].
  rewrite IH. unfold insert_commit_file. simpl.
  by rewrite rows_snoc, <- app_assoc.
Qed.

Lemma bulk_insert_complexity_changes (cn : Conn) (rs : list ComplexityRow) :
  commit_files (db (bulk_insert_complexity cn rs)) = commit_files (db cn).
Proof. apply (foldl_keeps _ (λ cn, commit_files (db cn))). done. Qed.

Lemma bulk_insert_features_changes (cn : Conn) (rs : list FeatureRow) :
  commit_files (db (bulk_insert_features cn rs)) = commit_files (db cn).
Proof. apply (foldl_keeps _ (λ cn, commit_files (db cn))). done. Qed.

Lemma bulk_insert_commits_changes (cn : Conn) (rs : list CommitRow) :
  commit_files (db (bulk_insert_commits cn rs)) = commit_files (db cn).
Proof.
  apply (foldl_keeps _ (λ cn, commit_files (db cn))). intros a b.
  unfold insert_or_ignore_commit. by destruct (has_commit _ _).
Qed.

Lemma index_diff_pending_changes (analyze : Analyzer) (c : Commit)
    (st st' : IndexState) (d : Diff) :
  index_diff analyze c st d = Some st' →
  ∃ fid, pending_changes st' = pending_changes st ++ [change_row c d fid].
Proof.
  destruct (upsert_file_total (conn st) (path_eff d)) as [fid Hup].
  unfold index_diff. rewrite Hup. simpl. intros [= <-]. exists fid.
  unfold pending_changes, insert_or_ignore_file. simpl.
  rewrite app_assoc. f_equal. by destruct (select_file_id _ _).
Qed.

Lemma without_file_id_change_row (c : Commit) (d : Diff) (fid : Z) :
  without_file_id (change_row c d fid) = change_row c d 0.
Proof. reflexivity. Qed.

Lemma index_diffs_pending_changes (analyze : Analyzer) (c : Commit)
    (ds : list Diff) (st st' : IndexState) :
  index_diffs analyze c st ds = Some st' →
  without_file_id <$> pending_changes st'
    = (without_file_id <$> pending_changes st) ++ ((λ d, change_row c d 0) <$> ds).
Proof.
  revert st. induction ds as [|d ds IH]; intros st; simpl.
  - intros [= ->]. by rewrite app_nil_r.
  - destruct (index_diff analyze c st d) as [st1|] eqn:Hd; [|done]. simpl.
    intros Hds. rewrite (IH _ Hds).
    apply index_diff_pending_changes in Hd as [fid ->].
    by rewrite fmap_app, <- app_assoc.
Qed.

Lemma flush_periodic_pending_changes (th : Thresholds) (st : IndexState) :
  pending_changes (flush_periodic th st) = pending_changes st.
Proof.
  unfold flush_periodic, pending_changes.
  repeat (case_decide; simpl);
    rewrite ?bulk_insert_features_changes, ?bulk_insert_complexity_changes,
      ?bulk_insert_commit_files_rows, ?app_nil_r; reflexivity.
Qed.

Lemma index_commit_pending_changes (th : Thresholds) (analyze : Analyzer)
    (finditer : Finditer) (st st' : IndexState) (c : Commit) :
  index_commit th analyze finditer st c = Some st' →
  without_file_id <$> pending_changes st'
    = (without_file_id <$> pending_changes st)
      ++ ((λ d, change_row c d 0) <$> diffs c).
Proof.
  unfold index_commit.
  destruct (index_diffs analyze c st (diffs c)) as [st1|] eqn:Hds; [|done].
  simpl. intros [= <-]. rewrite flush_periodic_pending_changes.
  by apply index_diffs_pending_changes in Hds.
Qed.

Lemma index_commits_pending_changes (th : Thresholds) (analyze : Analyzer)
    (finditer : Finditer) (cs : list Commit) (st st' : IndexState) :
  index_commits th analyze finditer st cs = Some st' →
  without_file_id <$> pending_changes st'
    = (without_file_id <$> pending_changes st) ++ change_rows_of cs.
Proof.
  unfold change_rows_of. revert st.
  induction cs as [|c cs IH]; intros st; simpl.
  - intros [= ->]. by rewrite app_nil_r.
  - destruct (index_commit th analyze finditer st c) as [st1|] eqn:Hc; [|done].
    simpl. intros Hcs. rewrite (IH _ Hcs).
    apply index_commit_pending_changes in Hc. by rewrite Hc, <- app_assoc.
Qed.

Lemma final_flush_changes (st : IndexState) :
  rows (commit_files (db (final_flush st))) = pending_changes st.
Proof.
  unfold final_flush, pending_changes.
  destruct (rows_features st), (rows_complex st), (rows_commit_files st);
    rewrite ?bulk_insert_features_changes, ?bulk_insert_complexity_changes,
      ?bulk_insert_commit_files_rows, ?app_nil_r; reflexivity.
Qed.

(** The change table after a run, file ids aside. *)
Lemma index_with_changes (th : Thresholds) (analyze : Analyzer)
    (finditer : Finditer) (repo : Repo) (s : Store) :
  ∃ s', index_with th analyze finditer repo s = Some s' ∧
    without_file_id <$> rows (commit_files s')
      = (without_file_id <$> rows (commit_files s))
        ++ change_rows_of (iter_commits repo).
Proof.
  destruct (index_with_run th analyze finditer repo s) as (st & Hrun & ->).
  eexists. split; [reflexivity|].
  rewrite final_flush_changes. apply index_commits_pending_changes in Hrun.
  rewrite Hrun. unfold pending_changes. simpl.
  by rewrite bulk_insert_commits_changes, app_nil_r.
Qed.

Lemma length_change_rows_of (cs : list Commit) :
  length (change_rows_of cs) = sum_list (length ∘ diffs <$> cs).
Proof.
  unfold change_rows_of. induction cs as [|c cs IH]; [done|].
  rewrite bind_cons, length_app, length_fmap, fmap_cons. simpl. by rewrite IH.
Qed.

(** X7. After an indexing run the change table holds the rows it held
    before, followed by one row per diff entry of every commit in
    traversal order; apart from the file id each row is fixed by its
    commit and diff entry, so it is the same for every choice of flush
    thresholds and analyzer. *)
Theorem index_change_rows (th : Thresholds) (analyze : Analyzer)
    (finditer : Finditer) (repo : Repo) (s : Store) :
  ∃ s', index_with th analyze finditer repo s = Some s' ∧
    without_file_id <$> rows (commit_files s')
      = (without_file_id <$> rows (commit_files s))
        ++ change_rows_of (iter_commits repo) ∧
    length (rows (commit_files s'))
      = (length (rows (commit_files s))
         + sum_list (length ∘ diffs <$> iter_commits repo))%nat.
Proof.
  destruct (index_with_changes th analyze finditer repo s) as (s' & Hrun & Hrows).
  exists s'. split; [done|]. split; [done|].
  apply (f_equal length) in Hrows.
  rewrite length_app, !length_fmap in Hrows.
  by rewrite Hrows, length_change_rows_of.
Qed.

(** X8. Indexing is not idempotent on the change and feature tables:
    a second run over the same commits appends every change row (file ids
    aside) and every feature row a second time. *)
Theorem index_twice_duplicates_rows (th : Thresholds) (analyze : Analyzer)
    (finditer : Finditer) (repo : Repo) (s : Store) :
  ∃ s1 s2,
    index_with th analyze finditer repo s = Some s1 ∧
    index_with th analyze finditer repo s1 = Some s2 ∧
    rows (features s2)
      = rows (features s) ++ (iter_commits repo ≫= feature_rows finditer)
        ++ (iter_commits repo ≫= feature_rows finditer) ∧
    without_file_id <$> rows (commit_files s2)
      = (without_file_id <$> rows (commit_files s))
        ++ change_rows_of (iter_commits repo) ++ change_rows_of (iter_commits repo).
Proof.
  destruct (index_with_changes th analyze finditer repo s) as (s1 & Hrun1 & Hc1).
  destruct (index_with_changes th analyze finditer repo s1) as (s2 & Hrun2 & Hc2).
  destruct (index_with_features th analyze finditer repo s) as (s1' & Hrun1' & Hf1).
  destruct (index_with_features th analyze finditer repo s1) as (s2' & Hrun2' & Hf2).
  assert (s1' = s1) as -> by congruence. assert (s2' = s2) as -> by congruence.
  exists s1, s2. split; [done|]. split; [done|].
  rewrite Hf2, Hf1, Hc2, Hc1, <- !app_assoc. done.
Qed.

(** ** The complexity table without a working analyzer *)

Lemma complexity_rows_nothing (analyze : Analyzer) (c : Commit) (d : Diff) (fid : Z) :
  reports_nothing analyze → complexity_rows analyze c d fid = [].
Proof.
  intros Hn. unfold complexity_rows.
  destruct (decide (change_type_upper d ≠ "D"%string)); [|done].
  destruct (b_blob d) as [b|]; [|done]. destruct (is_binary b); [done|].
  destruct (analyze (path_eff d) (blob_text b)) as [| |r] eqn:Ha; try done.
  by apply Hn in Ha.
Qed.

Lemma bulk_insert_commit_files_complexity (cn : Conn) (rs : list CommitFileRow) :
  complexity (db (bulk_insert_commit_files cn rs)) = complexity (db cn).
Proof. apply (foldl_keeps _ (λ cn, complexity (db cn))). done. Qed.

Lemma bulk_insert_features_complexity (cn : Conn) (rs : list FeatureRow) :
  complexity (db (bulk_insert_features cn rs)) = complexity (db cn).
Proof. apply (foldl_keeps _ (λ cn, complexity (db cn))). done. Qed.

Lemma bulk_insert_commits_complexity (cn : Conn) (rs : list CommitRow) :
  complexity (db (bulk_insert_commits cn rs)) = complexity (db cn).
Proof.
  apply (foldl_keeps _ (λ cn, complexity (db cn))). intros a b.
  unfold insert_or_ignore_commit. by destruct (has_commit _ _).
Qed.

Lemma index_diffs_no_samples (analyze : Analyzer) (c : Commit) (ds : list Diff)
    (st st' : IndexState) :
  reports_nothing analyze →
  index_diffs analyze c st ds = Some st' →
  rows_complex st' = rows_complex st ∧
  complexity (db (conn st')) = complexity (db (conn st)).
Proof.
  intros Hn. revert st. induction ds as [|d ds IH]; intros st; simpl.
  - by intros [= ->].
  - destruct (upsert_file_total (conn st) (path_eff d)) as [fid Hup].
    unfold index_diff. rewrite Hup. simpl. intros Hds.
    apply IH in Hds as [-> ->]. simpl.
    rewrite complexity_rows_nothing, app_nil_r by done. split; [done|].
    unfold insert_or_ignore_file. by destruct (select_file_id _ _).
Qed.

Lemma flush_periodic_no_samples (th : Thresholds) (st : IndexState) :
  rows_complex st = [] →
  rows_complex (flush_periodic th st) = [] ∧
  complexity (db (conn (flush_periodic th st))) = complexity (db (conn st)).
Proof.
  intros Hnil. unfold flush_periodic.
  repeat (case_decide; simpl); rewrite ?Hnil; simpl;
    rewrite ?bulk_insert_features_complexity, ?bulk_insert_commit_files_complexity;
    done.
Qed.

Lemma index_commits_no_samples (th : Thresholds) (analyze : Analyzer)
    (finditer : Finditer) (cs : list Commit) (st st' : IndexState) :
  reports_nothing analyze → rows_complex st = [] →
  index_commits th analyze finditer st cs = Some st' →
  rows_complex st' = [] ∧
  complexity (db (conn st')) = complexity (db (conn st)).
Proof.
  intros Hn. revert st. induction cs as [|c cs IH]; intros st Hnil; simpl.
  - by intros [= ->].
  - unfold index_commit.
    destruct (index_diffs analyze c st (diffs c)) as [st1|] eqn:Hds; [|done].
    simpl. intros Hcs.
    apply (index_diffs_no_samples _ _ _ _ _ Hn) in Hds as [Hr1 Hc1].
    rewrite Hnil in Hr1.
    set (st2 := mkIndexState (conn st1) (rows_commit_files st1) (rows_complex st1)
                  (rows_features st1 ++ feature_rows finditer c)) in *.
    destruct (flush_periodic_no_samples th st2 Hr1) as [Hr2 Hc2].
    apply IH in Hcs as [Hr3 Hc3]; [|done]. split; [done|].
    rewrite Hc3, Hc2. exact Hc1.
Qed.

Lemma index_with_no_samples (th : Thresholds) (analyze : Analyzer)
    (finditer : Finditer) (repo : Repo) (s : Store) :
  reports_nothing analyze →
  ∃ s', index_with th analyze finditer repo s = Some s' ∧
        complexity s' = complexity s.
Proof.
  intros Hn.
  destruct (index_with_run th analyze finditer repo s) as (st & Hrun & ->).
  eexists. split; [reflexivity|].
  apply (index_commits_no_samples _ _ _ _ _ _ Hn) in Hrun as [Hr Hc]; [|done].
  unfold final_flush. rewrite Hr.
  destruct (rows_features st), (rows_commit_files st);
    rewrite ?bulk_insert_features_complexity, ?bulk_insert_commit_files_complexity,
      Hc; simpl; by rewrite bulk_insert_commits_complexity.
Qed.

(** X9. With the fallback analyzer that returns [None], with one that
    raises on every file, and with any analyzer that never hands back a
    result, an indexing run completes and leaves the complexity table
    exactly as it was, for every commit sequence and flush threshold. *)
Theorem index_without_analyzer_keeps_complexity (th : Thresholds)
    (finditer : Finditer) (repo : Repo) (s : Store) :
  (∃ s', index_with th analyze_unavailable finditer repo s = Some s' ∧
         complexity s' = complexity s) ∧
  (∃ s', index_with th analyze_raises finditer repo s = Some s' ∧
         complexity s' = complexity s) ∧
  (∀ analyze, reports_nothing analyze →
     ∃ s', index_with th analyze finditer repo s = Some s' ∧
           complexity s' = complexity s).
Proof.
  split; [|split].
  - by apply index_with_no_samples.
  - by apply index_with_no_samples.
  - intros analyze. apply index_with_no_samples.
Qed.

(** ** Buffers between commits *)

(** X10. After every commit of the diff pass each buffer holds fewer rows
    than its flush threshold (no row at all when the threshold is 0): at
    most 999 change rows, 499 complexity rows and 999 feature rows with
    the thresholds of the source. *)
Theorem index_commit_bounds_buffers (th : Thresholds) (analyze : Analyzer)
    (finditer : Finditer) (st st' : IndexState) (c : Commit) :
  index_commit th analyze finditer st c = Some st' →
  (length (rows_commit_files st') < Nat.max 1 (th_commit_files th))%nat ∧
  (length (rows_complex st') < Nat.max 1 (th_complex th))%nat ∧
  (length (rows_features st') < Nat.max 1 (th_features th))%nat.
Proof.
  unfold index_commit.
  destruct (index_diffs analyze c st (diffs c)) as [st1|]; [|done].
  simpl. intros [= <-]. unfold flush_periodic.
  repeat (case_decide; simpl in * ); simpl; lia.
Qed.

(** ** More on the ownership aggregate *)

Lemma ownership_select_keys (s : Store) :
  ownership_key <$> ownership_select s = remove_dups (group_key <$> joined s).
Proof.
  unfold ownership_select. rewrite <- list_fmap_compose.
  induction (remove_dups _) as [|k l IH]; [done|].
  rewrite fmap_cons, IH. by destruct k.
Qed.

(** X11. The rows written by [compute_ownership] have pairwise distinct
    (file, author) keys, so the INSERT never meets the primary key of the
    table; and a key is present exactly when some change record of that
    file belongs to a stored commit of that author. *)
Theorem ownership_keys (s : Store) :
  NoDup (ownership_key <$> ownership (compute_ownership s)) ∧
  ∀ f e, (f, e) ∈ ownership_key <$> ownership (compute_ownership s) ↔
         ∃ cf c, cf ∈ rows (commit_files s) ∧ c ∈ rows (commits s) ∧
                 c_id c = cf_commit_id cf ∧ cf_file_id cf = f ∧
                 c_author_email c = e.
Proof.
  rewrite compute_ownership_table, ownership_select_keys.
  split; [apply NoDup_remove_dups|]. intros f e.
  rewrite elem_of_remove_dups, list_elem_of_fmap. split.
  - intros ([cf c] & [= -> ->] & Hj). apply joined_elem in Hj as (? & ? & ?).
    by exists cf, c.
  - intros (cf & c & Hcf & Hc & Hid & <- & <-). exists (cf, c).
    split; [done|]. by apply joined_elem.
Qed.

Lemma sum_Z_app (l1 l2 : list Z) : sum_Z (l1 ++ l2) = sum_Z l1 + sum_Z l2.
Proof. induction l1 as [|x l1 IH]; simpl; lia. Qed.

Lemma sum_Z_pick {B} `{!EqDecision B} (K : list B) (b : B) (v : Z) :
  NoDup K → b ∈ K →
  sum_Z ((λ k, if decide (b = k) then v else 0) <$> K) = v.
Proof.
  induction K as [|k K IH]; intros Hnd Hin.
  - by apply elem_of_nil in Hin.
  - apply NoDup_cons in Hnd as [Hk Hnd]. rewrite fmap_cons. simpl.
    destruct (decide (b = k)) as [->|Hne].
    + assert (sum_Z ((λ k0, if decide (k = k0) then v else 0) <$> K) = 0) as ->; [|lia].
      clear IH Hin Hnd. induction K as [|k' K IH]; [reflexivity|].
      rewrite fmap_cons. simpl. rewrite decide_False.
      * rewrite IH; [lia|]. intros ?. apply Hk. by right.
      * intros ->. apply Hk. by left.
    + apply elem_of_cons in Hin as [?|Hin]; [done|]. rewrite IH by done. lia.
Qed.

(** Summing a weight group by group sums it over the whole list. *)
Lemma sum_Z_groups {A B} `{!EqDecision B} (g : A → B) (w : A → Z)
    (K : list B) (l : list A) :
  NoDup K → (∀ x, x ∈ l → g x ∈ K) →
  sum_Z ((λ k, sum_Z (w <$> filter (λ x, g x = k) l)) <$> K) = sum_Z (w <$> l).
Proof.
  intros Hnd. induction l as [|x l IH]; intros Hl.
  - simpl. clear Hnd Hl. induction K as [|k K IHK]; [reflexivity|].
    rewrite fmap_cons. simpl. by rewrite IHK.
  - assert (sum_Z ((λ k, sum_Z (w <$> filter (λ y, g y = k) (x :: l))) <$> K)
            = sum_Z ((λ k, if decide (g x = k) then w x else 0) <$> K)
              + sum_Z ((λ k, sum_Z (w <$> filter (λ y, g y = k) l)) <$> K)) as ->.
    { clear. induction K as [|k K IHK]; [reflexivity|].
      rewrite !fmap_cons. simpl sum_Z. rewrite IHK, filter_cons.
      destruct (decide (g x = k)); [rewrite fmap_cons; simpl sum_Z|]; lia. }
    rewrite sum_Z_pick, IH; [by rewrite fmap_cons| |done|].
    + intros y Hy. apply Hl. by right.
    + apply Hl. by left.
Qed.

Lemma ownership_select_sum (s : Store) (col : OwnershipRow → Z)
    (w : CommitFileRow * CommitRow → Z) :
  (∀ k g, col (aggregate k g) = sum_Z (w <$> g)) →
  sum_Z (col <$> ownership_select s) = sum_Z (w <$> joined s).
Proof.
  intros Hcol. unfold ownership_select. rewrite <- list_fmap_compose.
  rewrite <- (sum_Z_groups group_key w (remove_dups (group_key <$> joined s))).
  - f_equal. apply list_fmap_ext. intros i k _. simpl. by rewrite Hcol.
  - apply NoDup_remove_dups.
  - intros j Hj. by apply elem_of_remove_dups, list_elem_of_fmap_2.
Qed.

(** With unique commit ids and no dangling reference, the join keeps
    every change record exactly once. *)
Lemma joined_changes (s : Store) :
  commit_refs_ok s → fst <$> joined s = rows (commit_files s).
Proof.
  intros [Hpk Hfk]. unfold joined. revert Hfk.
  generalize (rows (commit_files s)) as l.
  induction l as [|cf l IH]; intros Hfk; [reflexivity|].
  rewrite bind_cons, fmap_app, IH.
  2:{ intros cf' Hcf'. apply Hfk. by right. }
  destruct (unique_commit s Hpk (cf_commit_id cf)) as [c ->]; [|done].
  apply Hfk. by left.
Qed.

Lemma ownership_lines_total (s : Store) :
  commit_refs_ok s →
  sum_Z (o_lines_added <$> ownership (compute_ownership s))
    = sum_Z (cf_additions <$> rows (commit_files s)) ∧
  sum_Z (o_lines_deleted <$> ownership (compute_ownership s))
    = sum_Z (cf_deletions <$> rows (commit_files s)).
Proof.
  intros Hok. rewrite compute_ownership_table.
  rewrite (ownership_select_sum s o_lines_added (λ j, cf_additions j.1)) by done.
  rewrite (ownership_select_sum s o_lines_deleted (λ j, cf_deletions j.1)) by done.
  rewrite <- (joined_changes s Hok), <- !list_fmap_compose. done.
Qed.

(** X12. The line totals of the ownership table are those of the joined
    change records: summed over all rows, [lines_added] and
    [lines_deleted] equal the additions and deletions of the change
    records whose commit is stored (records of missing commits count for
    nothing); when every change record refers to a stored commit and
    commit ids are unique they equal the totals of the change table. *)
Theorem ownership_conserves_lines (s : Store) :
  sum_Z (o_lines_added <$> ownership (compute_ownership s))
    = sum_Z ((λ j, cf_additions j.1) <$> joined s) ∧
  sum_Z (o_lines_deleted <$> ownership (compute_ownership s))
    = sum_Z ((λ j, cf_deletions j.1) <$> joined s) ∧
  (commit_refs_ok s →
   sum_Z (o_lines_added <$> ownership (compute_ownership s))
     = sum_Z (cf_additions <$> rows (commit_files s)) ∧
   sum_Z (o_lines_deleted <$> ownership (compute_ownership s))
     = sum_Z (cf_deletions <$> rows (commit_files s))).
Proof.
  rewrite compute_ownership_table. split; [|split].
  - by apply ownership_select_sum.
  - by apply ownership_select_sum.
  - intros Hok. rewrite <- compute_ownership_table. by apply ownership_lines_total.
Qed.

Lemma min_Z_spec (l : list Z) :
  l ≠ [] → min_Z l ∈ l ∧ ∀ x, x ∈ l → min_Z l ≤ x.
Proof.
  destruct l as [|a l]; [done|]. intros _. simpl.
  induction l as [|b l IH]; simpl.
  - split; [by left|]. intros x Hx. apply list_elem_of_singleton in Hx. lia.
  - destruct IH as [Hin Hle]. split.
    + destruct (Z.min_spec b (foldr Z.min a l)) as [[_ ->]|[_ ->]].
      * right. by left.
      * apply elem_of_cons in Hin as [->|Hin]; [by left|]. right. by right.
    + intros x Hx. assert (foldr Z.min a l ≤ x ∨ b ≤ x) as Hor.
      { apply elem_of_cons in Hx as [->|Hx]; [left; apply Hle; by left|].
        apply elem_of_cons in Hx as [->|Hx]; [by right|].
        left. apply Hle. by right. }
      lia.
Qed.

Lemma max_Z_spec (l : list Z) :
  l ≠ [] → max_Z l ∈ l ∧ ∀ x, x ∈ l → x ≤ max_Z l.
Proof.
  destruct l as [|a l]; [done|]. intros _. simpl.
  induction l as [|b l IH]; simpl.
  - split; [by left|]. intros x Hx. apply list_elem_of_singleton in Hx. lia.
  - destruct IH as [Hin Hle]. split.
    + destruct (Z.max_spec b (foldr Z.max a l)) as [[_ ->]|[_ ->]].
      * apply elem_of_cons in Hin as [->|Hin]; [by left|]. right. by right.
      * right. by left.
    + intros x Hx. assert (x ≤ foldr Z.max a l ∨ x ≤ b) as Hor.
      { apply elem_of_cons in Hx as [->|Hx]; [left; apply Hle; by left|].
        apply elem_of_cons in Hx as [->|Hx]; [by right|].
        left. apply Hle. by right. }
      lia.
Qed.

(** X13. In every ownership row, [first_commit] and [last_commit] are the
    earliest and latest authored dates among the stored commits of that
    author that touch that file: both are the date of such a commit, and
    the date of every such commit lies between them. *)
Theorem ownership_first_last (s : Store) (r : OwnershipRow) :
  r ∈ ownership (compute_ownership s) →
  (∃ j, j ∈ joined s ∧ group_key j = ownership_key r ∧
        c_authored_date j.2 = o_first_commit r) ∧
  (∃ j, j ∈ joined s ∧ group_key j = ownership_key r ∧
        c_authored_date j.2 = o_last_commit r) ∧
  ∀ j, j ∈ joined s → group_key j = ownership_key r →
       o_first_commit r ≤ c_authored_date j.2 ≤ o_last_commit r.
Proof.
  rewrite compute_ownership_table. intros Hr.
  apply ownership_select_row in Hr as (k & j0 & -> & Hj0).
  assert (ownership_key (aggregate k (group_of k (joined s))) = k) as Hk
    by (by destruct k).
  rewrite Hk. simpl.
  set (dates := (λ j, c_authored_date j.2) <$> group_of k (joined s)).
  assert (dates ≠ []) as Hne.
  { intros Hnil. apply fmap_nil_inv in Hnil. rewrite Hnil in Hj0.
    by apply elem_of_nil in Hj0. }
  destruct (min_Z_spec dates Hne) as [Hmin_in Hmin_le].
  destruct (max_Z_spec dates Hne) as [Hmax_in Hmax_le].
  split; [|split].
  - apply list_elem_of_fmap in Hmin_in as (j & Hd & Hj).
    apply list_elem_of_filter in Hj as [Hkey Hj]. by exists j.
  - apply list_elem_of_fmap in Hmax_in as (j & Hd & Hj).
    apply list_elem_of_filter in Hj as [Hkey Hj]. by exists j.
  - intros j Hj Hkey.
    assert (c_authored_date j.2 ∈ dates) as Hin.
    { apply list_elem_of_fmap. exists j. split; [done|].
      by apply list_elem_of_filter. }
    split; [by apply Hmin_le | by apply Hmax_le].
Qed.

(** ** Commit references across an indexing run *)

Lemma change_rows_of_commit (cs : list Commit) (r : CommitFileRow) :
  r ∈ change_rows_of cs → ∃ c, c ∈ cs ∧ cf_commit_id r = hexsha c.
Proof.
  unfold change_rows_of. intros Hr.
  apply list_elem_of_bind in Hr as (c & Hr & Hc).
  apply list_elem_of_fmap in Hr as (d & -> & _). by exists c.
Qed.

Lemma index_with_keeps_refs (th : Thresholds) (analyze : Analyzer)
    (finditer : Finditer) (repo : Repo) (s : Store) :
  commit_refs_ok s →
  ∃ s', index_with th analyze finditer repo s = Some s' ∧ commit_refs_ok s'.
Proof.
  intros [Hpk Hfk].
  destruct (index_with_total th analyze finditer repo s) as (s' & Hrun & Hc).
  destruct (index_with_changes th analyze finditer repo s) as (s'' & Hrun' & Hch).
  assert (s'' = s') as -> by congruence.
  exists s'. split; [done|]. split.
  - rewrite Hc. by apply foldl_insert_commit_NoDup.
  - intros cf Hcf. rewrite Hc.
    assert (without_file_id cf ∈ without_file_id <$> rows (commit_files s')) as Hin
      by (by apply list_elem_of_fmap_2).
    rewrite Hch in Hin. apply elem_of_app in Hin as [Hold|Hnew].
    + apply list_elem_of_fmap in Hold as (cf' & Heq & Hcf').
      apply foldl_insert_commit_mono.
      replace (cf_commit_id cf) with (cf_commit_id cf'); [by apply Hfk|].
      by apply (f_equal cf_commit_id) in Heq.
    + apply change_rows_of_commit in Hnew as (c & Hc' & Hid). simpl in Hid.
      rewrite Hid. apply (foldl_insert_commit_stored _ _ (commit_row c)).
      by apply list_elem_of_fmap_2.
Qed.

(** X14. Indexing keeps the references from change records to commits
    intact: if commit ids are unique and every change record refers to a
    stored commit before the run, the same holds after it, since every
    commit is stored before its diff is read. *)
Theorem index_keeps_commit_refs (th : Thresholds) (analyze : Analyzer)
    (finditer : Finditer) (repo : Repo) (s : Store) :
  commit_refs_ok s →
  ∃ s', index_with th analyze finditer repo s = Some s' ∧
        NoDup (commit_ids (commits s')) ∧
        ∀ cf, cf ∈ rows (commit_files s') →
              ∃ c, c ∈ rows (commits s') ∧ c_id c = cf_commit_id cf.
Proof.
  intros Hok.
  destruct (index_with_keeps_refs th analyze finditer repo s Hok)
    as (s' & Hrun & Hpk & Hfk).
  exists s'. split; [done|]. split; [done|].
  intros cf Hcf. apply Hfk in Hcf.
  apply list_elem_of_fmap in Hcf as (c & Hid & Hc). by exists c.
Qed.

(** ** The commands *)

Lemma index_commits_keeps {X} (g : Store → X) (th : Thresholds)
    (analyze : Analyzer) (finditer : Finditer) (cs : list Commit)
    (st st' : IndexState) :
  (∀ cn p, g (db (insert_or_ignore_file cn p)) = g (db cn)) →
  (∀ cn r, g (db (insert_commit_file cn r)) = g (db cn)) →
  (∀ cn r, g (db (insert_or_replace_complexity cn r)) = g (db cn)) →
  (∀ cn r, g (db (insert_feature cn r)) = g (db cn)) →
  index_commits th analyze finditer st cs = Some st' →
  g (db (final_flush st')) = g (db (conn st)).
Proof.
  intros Hfile Hcf Hcx Hft.
  assert (∀ cn rs, g (db (bulk_insert_commit_files cn rs)) = g (db cn)) as Hbcf
    by (intros; by apply (foldl_keeps _ (λ cn, g (db cn)))).
  assert (∀ cn rs, g (db (bulk_insert_complexity cn rs)) = g (db cn)) as Hbcx
    by (intros; by apply (foldl_keeps _ (λ cn, g (db cn)))).
  assert (∀ cn rs, g (db (bulk_insert_features cn rs)) = g (db cn)) as Hbft
    by (intros; by apply (foldl_keeps _ (λ cn, g (db cn)))).
  assert (∀ st, g (db (final_flush st)) = g (db (conn st))) as Hfinal.
  { intros st0. unfold final_flush.
    destruct (rows_features st0), (rows_complex st0), (rows_commit_files st0);
      rewrite ?Hbft, ?Hbcx, ?Hbcf; reflexivity. }
  rewrite Hfinal. clear Hfinal.
  assert (∀ c ds st0 st1, index_diffs analyze c st0 ds = Some st1 →
            g (db (conn st1)) = g (db (conn st0))) as Hdiffs.
  { intros c ds. induction ds as [|d ds IH]; intros st0 st1; simpl.
    - by intros [= ->].
    - destruct (upsert_file_total (conn st0) (path_eff d)) as [fid Hup].
      unfold index_diff. rewrite Hup. simpl. intros Hds.
      apply IH in Hds. rewrite Hds. simpl. apply Hfile. }
  revert st. induction cs as [|c cs IH]; intros st; simpl.
  - by intros [= ->].
  - unfold index_commit.
    destruct (index_diffs analyze c st (diffs c)) as [st1|] eqn:Hds; [|done].
    simpl. intros Hcs. apply IH in Hcs. rewrite Hcs.
    apply Hdiffs in Hds. rewrite <- Hds. unfold flush_periodic.
    repeat (case_decide; simpl); rewrite ?Hbft, ?Hbcx, ?Hbcf; reflexivity.
Qed.

Lemma index_with_meta (th : Thresholds) (analyze : Analyzer)
    (finditer : Finditer) (repo : Repo) (s : Store) :
  ∃ s', index_with th analyze finditer repo s = Some s' ∧
        repo_meta s' = upsert_meta (repo_meta s) "repo_dir" (repo_dir repo) ∧
        ownership s' = ownership s.
Proof.
  destruct (index_with_run th analyze finditer repo s) as (st & Hrun & ->).
  eexists. split; [reflexivity|]. split.
  - rewrite (index_commits_keeps repo_meta _ _ _ _ _ _ ltac:(intros; unfold insert_or_ignore_file; by destruct (select_file_id _ _)) ltac:(done) ltac:(done) ltac:(done) Hrun).
    simpl. apply (foldl_keeps _ (λ cn, repo_meta (db cn))). intros a b.
    unfold insert_or_ignore_commit. by destruct (has_commit _ _).
  - rewrite (index_commits_keeps ownership _ _ _ _ _ _ ltac:(intros; unfold insert_or_ignore_file; by destruct (select_file_id _ _)) ltac:(done) ltac:(done) ltac:(done) Hrun).
    simpl. apply (foldl_keeps _ (λ cn, ownership (db cn))). intros a b.
    unfold insert_or_ignore_commit. by destruct (has_commit _ _).
Qed.

(** X15. The [index] command on a store whose change records refer to
    stored commits: it completes, the references stay intact, the
    ownership table is rebuilt from the tables the run left (whatever it
    held before), its keys are unique and its line totals are those of
    the change table. *)
Theorem cli_index_consistent (analyze : Analyzer) (finditer : Finditer)
    (repo : Repo) (s : Store) :
  commit_refs_ok s →
  ∃ s1 s',
    index analyze finditer repo s = Some s1 ∧
    cli_index analyze finditer repo s = Some s' ∧
    commit_refs_ok s' ∧
    commits s' = commits s1 ∧ commit_files s' = commit_files s1 ∧
    ownership s' = ownership_select s1 ∧
    NoDup (ownership_key <$> ownership s') ∧
    sum_Z (o_lines_added <$> ownership s')
      = sum_Z (cf_additions <$> rows (commit_files s')) ∧
    sum_Z (o_lines_deleted <$> ownership s')
      = sum_Z (cf_deletions <$> rows (commit_files s')).
Proof.
  intros Hok. unfold cli_index, index.
  destruct (index_with_keeps_refs default_thresholds analyze finditer repo s Hok)
    as (s1 & Hrun & Hok1).
  exists s1, (compute_ownership s1). rewrite Hrun.
  split; [done|]. split; [done|]. split; [exact Hok1|].
  split; [done|]. split; [done|]. split; [done|]. split.
  - rewrite compute_ownership_table, ownership_select_keys. apply NoDup_remove_dups.
  - change (commit_files (compute_ownership s1)) with (commit_files s1).
    by apply ownership_lines_total.
Qed.

(** X16. After the [init] command the metadata holds the repository
    directory under [repo_dir] and the database path under [db_path];
    every other key reads as before. *)
Theorem cli_init_records_meta (analyze : Analyzer) (finditer : Finditer)
    (repo : Repo) (db_path : string) (s : Store) :
  ∃ s', cli_init analyze finditer repo db_path s = Some s' ∧
        get_meta s' "repo_dir" = Some (repo_dir repo) ∧
        get_meta s' "db_path" = Some db_path ∧
        ∀ k, k ≠ "repo_dir"%string → k ≠ "db_path"%string →
             get_meta s' k = get_meta s k.
Proof.
  unfold cli_init, index.
  destruct (index_with_meta default_thresholds analyze finditer repo s)
    as (s1 & -> & Hmeta & _).
  simpl. eexists. split; [reflexivity|]. unfold get_meta. simpl. rewrite Hmeta.
  split; [|split].
  - by rewrite get_upsert_meta_ne, get_upsert_meta_eq.
  - by rewrite get_upsert_meta_eq.
  - intros k Hk1 Hk2. by rewrite !get_upsert_meta_ne.
Qed.

(** ** Weekly churn *)

Lemma week_start_bucket (c : CommitRow) :
  week_start c `rem` 604800 = 0 ∧
  (0 ≤ c_authored_date c →
     week_start c ≤ c_authored_date c < week_start c + 604800) ∧
  (c_authored_date c ≤ 0 →
     week_start c - 604800 < c_authored_date c ≤ week_start c).
Proof.
  unfold week_start.
  pose proof (Z.quot_rem' (c_authored_date c) 604800) as Hqr.
  split; [apply Z.rem_mul; lia|]. split.
  - intros Hpos. pose proof (Z.rem_bound_pos (c_authored_date c) 604800 Hpos). lia.
  - intros Hneg. pose proof (Z.rem_bound_pos_neg (c_authored_date c) 604800). lia.
Qed.

(** X17. The weekly churn series lists each week that has a change record
    of a stored commit once, in ascending order; a week starts at a
    multiple of 604800 seconds and holds the commits authored in the
    604800 seconds from there on (for dates before 1970, in the 604800
    seconds up to there, since the division rounds towards zero); and the
    churn of all weeks adds up to the additions plus deletions of all
    joined change records. *)
Theorem weekly_churn_series (s : Store) :
  Sorted Z.le (fst <$> weekly_churn s) ∧
  NoDup (fst <$> weekly_churn s) ∧
  (∀ w, w ∈ fst <$> weekly_churn s ↔ ∃ j, j ∈ joined s ∧ week_start j.2 = w) ∧
  (∀ w ch, (w, ch) ∈ weekly_churn s →
     ch = sum_Z (churn_of <$> filter (λ j, week_start j.2 = w) (joined s))) ∧
  (∀ c, week_start c `rem` 604800 = 0 ∧
        (0 ≤ c_authored_date c →
           week_start c ≤ c_authored_date c < week_start c + 604800) ∧
        (c_authored_date c ≤ 0 →
           week_start c - 604800 < c_authored_date c ≤ week_start c)) ∧
  sum_Z (snd <$> weekly_churn s) = sum_Z (churn_of <$> joined s).
Proof.
  unfold weekly_churn.
  set (weeks := merge_sort Z.le (remove_dups ((λ j, week_start j.2) <$> joined s))).
  assert (weeks ≡ₚ remove_dups ((λ j, week_start j.2) <$> joined s)) as Hperm
    by apply merge_sort_Permutation.
  assert (NoDup weeks) as Hnd by (rewrite Hperm; apply NoDup_remove_dups).
  assert (∀ w, w ∈ weeks ↔ ∃ j, j ∈ joined s ∧ week_start j.2 = w) as Hin.
  { intros w. rewrite Hperm, elem_of_remove_dups, list_elem_of_fmap.
    split; intros (j & ? & ?); by exists j. }
  assert (fst <$> ((λ w, (w, sum_Z (churn_of <$>
            filter (λ j, week_start j.2 = w) (joined s)))) <$> weeks) = weeks) as Hfst.
  { rewrite <- list_fmap_compose. clear. induction weeks as [|w l IH]; [done|].
    rewrite fmap_cons. simpl. by rewrite IH. }
  rewrite Hfst. split; [apply Sorted_merge_sort; apply _|].
  split; [done|]. split; [done|]. split.
  - intros w ch Hw. apply list_elem_of_fmap in Hw as (w' & [= -> ->] & _). done.
  - split; [apply week_start_bucket|].
    rewrite <- list_fmap_compose.
    apply (sum_Z_groups (λ j, week_start j.2) churn_of weeks (joined s) Hnd).
    intros j Hj. apply Hin. by exists j.
Qed.

(** ** Issue references *)

Lemma take_while_spec (cls : ascii → bool) (s p r : list ascii) :
  take_while cls s = (p, r) → Forall (λ a, cls a = true) p ∧ s = p ++ r.
Proof.
  revert p r. induction s as [|a s IH]; intros p r; simpl.
  - by intros [= <- <-].
  - destruct (cls a) eqn:Ha.
    + destruct (take_while cls s) as [p' r'] eqn:Htw. intros [= <- <-].
      destruct (IH p' r' eq_refl) as [Hp ->]. split; [by constructor|done].
    + by intros [= <- <-].
Qed.

(** A pattern that ends in a repeated class ends its match with a
    non-empty run of that class. *)
Lemma match_items_last_plus (its : list ReItem) (cls : ascii → bool)
    (s : list ascii) (ps : list (list ascii)) (r : list ascii) :
  match_items (its ++ [RPlus cls]) s = Some (ps, r) →
  ∃ pc, last ps = Some pc ∧ pc ≠ [] ∧ Forall (λ a, cls a = true) pc.
Proof.
  revert s ps. induction its as [|it its IH]; intros s ps.
  - simpl. destruct (take_while cls s) as [p r'] eqn:Htw.
    destruct p as [|a p]; [done|]. simpl. intros [= <- <-].
    exists (a :: p). split; [done|]. split; [done|].
    by apply take_while_spec in Htw as [? _].
  - assert (∀ p s', ('(ps0, r') ← match_items (its ++ [RPlus cls]) s';
                     Some (p :: ps0, r')) = Some (ps, r) →
              ∃ pc, last ps = Some pc ∧ pc ≠ [] ∧ Forall (λ a, cls a = true) pc)
      as Hcont.
    { intros p s' Hm.
      destruct (match_items (its ++ [RPlus cls]) s') as [[ps0 r']|] eqn:Hrec;
        [|done].
      simpl in Hm. injection Hm as <- <-.
      destruct (IH _ _ Hrec) as (pc & Hlast & Hne & Hall).
      exists pc. split; [|done]. destruct ps0; [done|]. by rewrite last_cons_cons. }
    simpl. destruct it as [c|c|c].
    + destruct s as [|a s]; [done|]. destruct (c a); [apply Hcont|done].
    + destruct s as [|a s]; [apply Hcont|]. destruct (c a); apply Hcont.
    + destruct (take_while c s) as [p r'] eqn:Htw.
      destruct p; [done|apply Hcont].
Qed.

Lemma scan_matches (fuel : nat) (p : Compiled) (s : list ascii) (m : ReMatch) :
  m ∈ scan fuel p s →
  ∃ s' pieces r, match_items (re_items p) s' = Some (pieces, r) ∧
                 m = mk_match p pieces.
Proof.
  revert s. induction fuel as [|fuel IH]; intros s.
  - destruct s; simpl; intros Hm; by apply elem_of_nil in Hm.
  - destruct s as [|a s]; simpl; [intros Hm; by apply elem_of_nil in Hm|].
    destruct (match_items (re_items p) (a :: s)) as [[pieces r]|] eqn:Hmt.
    + intros Hm. apply elem_of_cons in Hm as [->|Hm]; [by eauto|by eapply IH].
    + apply IH.
Qed.

Lemma list_ascii_of_string_of_list (l : list ascii) :
  String.list_ascii_of_string (String.string_of_list_ascii l) = l.
Proof. induction l as [|a l IH]; simpl; by rewrite ?IH. Qed.

Lemma numbered_match_ref (p : Compiled) (its : list ReItem) (m : ReMatch) (s : string) :
  re_has_num p = true → re_items p = its ++ [RPlus re_digit] →
  m ∈ scan (length (String.list_ascii_of_string s)) p (String.list_ascii_of_string s) →
  match_ref m ≠ EmptyString ∧ all_digits (match_ref m) ∧
  group_num m = Some (match_ref m).
Proof.
  intros Hnum Hits Hm.
  apply scan_matches in Hm as (s' & pieces & r & Hmt & ->).
  rewrite Hits in Hmt.
  apply match_items_last_plus in Hmt as (pc & Hlast & Hne & Hall).
  unfold mk_match, match_ref, all_digits. rewrite Hnum, Hlast. simpl.
  destruct pc as [|a pc]; [done|]. simpl.
  split; [done|]. split; [|done].
  rewrite list_ascii_of_string_of_list. exact Hall.
Qed.

Lemma re_compile_fixes :
  re_compile "fixe?s?\s+#(?P<num>\d+)"
    = Some (mkCompiled
        ([ ROne (ch_i "f"); ROne (ch_i "i"); ROne (ch_i "x"); ROpt (ch_i "e");
           ROpt (ch_i "s"); RPlus re_space; ROne (ch "#") ] ++ [RPlus re_digit])
        true).
Proof. reflexivity. Qed.

Lemma re_compile_closes :
  re_compile "close[sd]?\s+#(?P<num>\d+)"
    = Some (mkCompiled
        ([ ROne (ch_i "c"); ROne (ch_i "l"); ROne (ch_i "o"); ROne (ch_i "s");
           ROne (ch_i "e"); ROpt (λ b, ch_i "s" b || ch_i "d" b); RPlus re_space;
           ROne (ch "#") ] ++ [RPlus re_digit])
        true).
Proof. reflexivity. Qed.

(** X18. On ASCII commit messages, every feature row of the two issue
    patterns ([fixe?s?\s+#(?P<num>\d+)] and [close[sd]?\s+#(?P<num>\d+)])
    carries as reference a non-empty string of decimal digits, the text
    of the group [num]. *)
Theorem issue_reference_is_number (c : Commit) (r : FeatureRow) :
  r ∈ pattern_rows ascii_finditer c →
  ft_type r = "fixe?s?\s+#(?P<num>\d+)"%string ∨
  ft_type r = "close[sd]?\s+#(?P<num>\d+)"%string →
  ft_commit_id r = hexsha c ∧
  ft_reference r ≠ EmptyString ∧ all_digits (ft_reference r).
Proof.
  unfold pattern_rows. intros Hr Hty.
  apply list_elem_of_bind in Hr as (pat & Hr & Hpat).
  apply list_elem_of_bind in Hr as (m & Hr & Hm).
  apply list_elem_of_singleton in Hr as ->. simpl in *.
  split; [done|]. unfold ascii_finditer in Hm.
  destruct Hty as [-> | ->].
  - rewrite re_compile_fixes in Hm.
    eapply numbered_match_ref in Hm as (? & ? & _); done.
  - rewrite re_compile_closes in Hm.
    eapply numbered_match_ref in Hm as (? & ? & _); done.
Qed.

(** ** Question answering: search keywords *)

Lemma re_split_non_alnum_alnum (s t : list ascii) :
  t ∈ re_split_non_alnum s → Forall (λ a, is_alnum a = true) t.
Proof.
  revert t. induction s as [|a s IH]; intros t; simpl.
  - intros Ht. apply list_elem_of_singleton in Ht as ->. constructor.
  - destruct (is_alnum a) eqn:Ha.
    + destruct (re_split_non_alnum s) as [|t0 ts].
      * intros Ht. apply list_elem_of_singleton in Ht as ->. by repeat constructor.
      * intros Ht. apply elem_of_cons in Ht as [->|Ht].
        -- constructor; [done|]. apply IH. by left.
        -- apply IH. by right.
    + destruct s as [|b s'].
      * intros Ht. apply elem_of_cons in Ht as [->|Ht]; [constructor|by apply IH].
      * destruct (is_alnum b).
        -- intros Ht. apply elem_of_cons in Ht as [->|Ht]; [constructor|by apply IH].
        -- apply IH.
Qed.

Lemma list_ascii_of_string_app (s1 s2 : string) :
  String.list_ascii_of_string (s1 +:+ s2)
    = String.list_ascii_of_string s1 ++ String.list_ascii_of_string s2.
Proof. induction s1 as [|a s1 IH]; simpl; by rewrite ?IH. Qed.

Lemma length_string_of_list_ascii (l : list ascii) :
  String.length (String.string_of_list_ascii l) = length l.
Proof. induction l as [|a l IH]; simpl; by rewrite ?IH. Qed.

Lemma contains_chars (k w : string) (a : ascii) :
  contains k w = true → a ∈ String.list_ascii_of_string k →
  a ∈ String.list_ascii_of_string w.
Proof.
  intros Hc Ha. apply contains_spec in Hc as (pre & post & ->).
  rewrite !list_ascii_of_string_app, !elem_of_app. auto.
Qed.

Lemma fallback_keywords_elem (q w : string) :
  w ∈ fallback_keywords q →
  ∃ t, w = String.string_of_list_ascii t ∧ (3 ≤ length t)%nat ∧
       t ∈ re_split_non_alnum (String.list_ascii_of_string q).
Proof.
  unfold fallback_keywords. intros Hw.
  apply list_elem_of_fmap in Hw as (t & -> & Ht).
  apply list_elem_of_filter in Ht as [Hlen Ht]. by exists t.
Qed.

(** X19. Every keyword the fallback search extracts from a question has
    at least three characters, all of them lower-case letters or digits;
    so no [_] or [%] typed by the user reaches the LIKE pattern, whose
    only wildcards are the [%] put between and around the keywords. *)
Theorem fallback_keywords_sanitized (q w : string) :
  w ∈ fallback_keywords q →
  (3 ≤ String.length w)%nat ∧ all_alnum w ∧
  contains "_" w = false ∧ contains "%" w = false.
Proof.
  intros Hw. apply fallback_keywords_elem in Hw as (t & -> & Hlen & Ht).
  apply re_split_non_alnum_alnum in Ht.
  assert (all_alnum (String.string_of_list_ascii t)) as Hal.
  { unfold all_alnum. by rewrite list_ascii_of_string_of_list. }
  split; [by rewrite length_string_of_list_ascii|]. split; [done|].
  split; apply not_true_is_false; intros Hc;
    eapply contains_chars in Hc; [|by left| |by left];
    eapply Forall_forall in Hal; try exact Hc; done.
Qed.







Lemma bulk_insert_complexity_last_wins_witness :
  NoDup (complexity_key <$>
    rows (complexity (db (bulk_insert_complexity (connect empty_store) ex_samples)))) ∧
  ∀ k, complexity_at
         (complexity (db (bulk_insert_complexity (connect empty_store) ex_samples))) k
       = match last_with_key ex_samples k with
         | Some r => [r]
         | None => complexity_at (complexity (db (connect empty_store))) k
         end.
Proof.
  apply (bulk_insert_complexity_last_wins (connect empty_store) ex_samples).
  simpl. constructor.
Defined.

Lemma upsert_file_new_path_witness :
  ∃ cn' i,
    upsert_file (connect empty_store) (Some "a"%string) = Some (cn', i) ∧
    files (db cn') = files (db (connect empty_store)) ++ [mkFileRow i (Some "a"%string)] ∧
    0 < i ∧ (∀ r, r ∈ files (db (connect empty_store)) → f_id r < i) ∧
    select_file_id (files (db cn')) (Some "a"%string) = Some i.
Proof.
  apply (upsert_file_new_path (connect empty_store) "a"). reflexivity.
Defined.

Lemma upsert_file_lookup_before_insert_witness :
  ∃ cn',
    upsert_file (connect ex_indexed_store) (Some "a"%string) = Some (cn', 1) ∧
    files (db cn') = files (db (connect ex_indexed_store)) ∧
    last_insert_rowid cn' = 0 ∧
    mkFileRow 1 (Some "a"%string) ∈ files (db (connect ex_indexed_store)).
Proof.
  apply (upsert_file_lookup_before_insert (connect ex_indexed_store) "a" 1).
  - reflexivity.
  - vm_compute. reflexivity.
Defined.

Lemma upsert_file_keeps_files_witness :
  let cn := connect empty_store in
  let cn' := insert_or_ignore_file cn (Some "a"%string) in
  files (db cn) `prefix_of` files (db cn') ∧
  (files_wf (db cn) → files_wf (db cn')) ∧
  (∀ p, Some "a"%string = Some p → path_stored (db cn') p) ∧
  (∀ p, path_stored (db cn) p → path_stored (db cn') p).
Proof.
  apply (upsert_file_keeps_files (connect empty_store)
           (insert_or_ignore_file (connect empty_store) (Some "a"%string))
           (Some "a"%string) 1).
  vm_compute. reflexivity.
Defined.

Lemma index_commit_bounds_buffers_witness :
  let st' := default ex_start_state
               (index_commit default_thresholds analyze_unavailable ascii_finditer
                  ex_start_state ex_scenario_commit) in
  (length (rows_commit_files st') < Nat.max 1 (th_commit_files default_thresholds))%nat ∧
  (length (rows_complex st') < Nat.max 1 (th_complex default_thresholds))%nat ∧
  (length (rows_features st') < Nat.max 1 (th_features default_thresholds))%nat.
Proof.
  apply (index_commit_bounds_buffers default_thresholds analyze_unavailable
           ascii_finditer ex_start_state _ ex_scenario_commit).
  vm_compute. reflexivity.
Defined.

Lemma ownership_first_last_witness :
  let r := mkOwnershipRow 1 "dev@example.org" 3 0 0 10 12 in
  (∃ j, j ∈ joined ex_indexed_store ∧ group_key j = ownership_key r ∧
        c_authored_date j.2 = o_first_commit r) ∧
  (∃ j, j ∈ joined ex_indexed_store ∧ group_key j = ownership_key r ∧
        c_authored_date j.2 = o_last_commit r) ∧
  ∀ j, j ∈ joined ex_indexed_store → group_key j = ownership_key r →
       o_first_commit r ≤ c_authored_date j.2 ≤ o_last_commit r.
Proof.
  apply (ownership_first_last ex_indexed_store).
  vm_compute. left.
Defined.

Lemma index_keeps_commit_refs_witness :
  ∃ s', index_with default_thresholds analyze_unavailable ascii_finditer
          ex_repo empty_store = Some s' ∧
        NoDup (commit_ids (commits s')) ∧
        ∀ cf, cf ∈ rows (commit_files s') →
              ∃ c, c ∈ rows (commits s') ∧ c_id c = cf_commit_id cf.
Proof.
  apply (index_keeps_commit_refs default_thresholds analyze_unavailable
           ascii_finditer ex_repo empty_store).
  split; [constructor|]. intros cf Hcf. by apply elem_of_nil in Hcf.
Defined.

Lemma cli_index_consistent_witness :
  ∃ s1 s',
    index analyze_unavailable ascii_finditer ex_repo empty_store = Some s1 ∧
    cli_index analyze_unavailable ascii_finditer ex_repo empty_store = Some s' ∧
    commit_refs_ok s' ∧
    commits s' = commits s1 ∧ commit_files s' = commit_files s1 ∧
    ownership s' = ownership_select s1 ∧
    NoDup (ownership_key <$> ownership s') ∧
    sum_Z (o_lines_added <$> ownership s')
      = sum_Z (cf_additions <$> rows (commit_files s')) ∧
    sum_Z (o_lines_deleted <$> ownership s')
      = sum_Z (cf_deletions <$> rows (commit_files s')).
Proof.
  apply (cli_index_consistent analyze_unavailable ascii_finditer ex_repo empty_store).
  split; [constructor|]. intros cf Hcf. by apply elem_of_nil in Hcf.
Defined.

Lemma issue_reference_is_number_witness :
  let r := mkFeatureRow "abc123" "fixe?s?\s+#(?P<num>\d+)" "42" in
  ft_commit_id r = hexsha ex_scenario_commit ∧
  ft_reference r ≠ EmptyString ∧ all_digits (ft_reference r).
Proof.
  apply (issue_reference_is_number ex_scenario_commit).
  - vm_compute. left.
  - left. reflexivity.
Defined.

Lemma fallback_keywords_sanitized_witness :
  (3 ≤ String.length "how")%nat ∧ all_alnum "how" ∧
  contains "_" "how" = false ∧ contains "%" "how" = false.
Proof.
  apply (fallback_keywords_sanitized "how did the api_v2 change?" "how").
  vm_compute. left.
Defined.

